(** * gvt fetch: the dependency-resolution engine of [fetch.go]

    A shallow embedding of [fetch.go] (package main of gvt): the graph
    analysis [findMissing], the helpers [keys], [pkgs] and [stripscheme],
    and the command [fetch] itself with its recursive loop.

    Go values are modelled as follows.
    - [string] is Rocq's [string] (a sequence of bytes); Go's [<] on strings,
      which [sort.Strings] uses, is the byte-wise lexicographic order
      [String.le].
    - [map[string]bool] holding only [true] (the maps [missing], [stk] and
      [checked] of [findMissing]) is a [gset string]; [len] is [size].
    - [map[string]*vendor.Pkg] built by assignment is a [gmap string Pkg].
    - a Go map that is only ranged over and looked up (the depset map, the
      package map of a depset) is the list of its entries in the order the
      runtime iterates them; the theorems hold for every such order.
    - [panic] is an outcome of its own, distinct from an [error] result. *)

From stdpp Require Import gmap strings list sorting relations.

(** ** Outcomes of the graph analysis *)

(** The two [panic] sites of [findMissing] (lines 238 and 244); each carries
    what the message prints: the import path and the visitation stack. *)
Inductive fault :=
  | ImportLoop (v : string) (stk : gset string)
  | ImpossiblePop (v : string) (stk : gset string).

(** A run either returns, panics, or exhausts the recursion budget of the
    model ([OutOfFuel] is shown below never to happen for [findMissing]). *)
Inductive outcome (A : Type) :=
  | Done (a : A)
  | Panicked (p : fault)
  | OutOfFuel.
Arguments Done {A} a.
Arguments Panicked {A} p.
Arguments OutOfFuel {A}.

Definition outcome_bind {A B} (o : outcome A) (k : A → outcome B) : outcome B :=
  match o with
  | Done a => k a
  | Panicked p => Panicked p
  | OutOfFuel => OutOfFuel
  end.

Definition outcome_map {A B} (g : A → B) (o : outcome A) : outcome B :=
  outcome_bind o (λ a, Done (g a)).

Notation "'let*' x ':=' o 'in' k" := (outcome_bind o (λ x, k))
  (at level 10, x name, o at level 100, k at level 200).

Definition is_import_loop {A} (o : outcome A) : Prop :=
  ∃ v stk, o = Panicked (ImportLoop v stk).

(** ** The data of package [vendor] that [fetch.go] reads *)

(** [vendor.Pkg] embeds [build.Package]; [fetch.go] reads [ImportPath] and
    [Imports] and sets [Name] for the cgo pseudo package. *)
Record Pkg := { Name : string; ImportPath : string; Imports : list string }.

(** [vendor.Depset]; [Pkgs] lists the entries of the Go map. *)
Record Depset := { Root : string; Prefix : string; Pkgs : list (string * Pkg) }.

(** ** findMissing (lines 219-285) *)

(** The three maps the closures [push], [pop] and [fn] share. *)
Record analysis := {
  missing : gset string;
  checked : gset string;
  stk : gset string
}.

Definition set_missing (g : gset string → gset string) (st : analysis) :=
  {| missing := g (missing st); checked := checked st; stk := stk st |}.
Definition set_checked (g : gset string → gset string) (st : analysis) :=
  {| missing := missing st; checked := g (checked st); stk := stk st |}.
Definition set_stk (g : gset string → gset string) (st : analysis) :=
  {| missing := missing st; checked := checked st; stk := g (stk st) |}.

(** Lines 236-241. *)
Definition push (v : string) (st : analysis) : outcome analysis :=
  if decide (v ∈ stk st) then Panicked (ImportLoop v (stk st))
  else Done (set_stk (λ s, {[v]} ∪ s) st).

(** Lines 242-247. *)
Definition pop (v : string) (st : analysis) : outcome analysis :=
  if decide (v ∈ stk st) then Done (set_stk (λ s, s ∖ {[v]}) st)
  else Panicked (ImpossiblePop v (stk st)).

(** The loop of lines 267-272 over [p.Imports], with the recursive call
    abstracted as [call]; a panic inside [call] leaves the loop. *)
Fixpoint range_imports {S : Type} (call : string → S → outcome S)
    (importpath : string) (imps : list string) (st : S) : outcome S :=
  match imps with
  | [] => Done st
  | i :: imps' =>
      if decide (i = importpath) then range_imports call importpath imps' st
      else let* st' := call i st in range_imports call importpath imps' st'
  end.

(** The closure [fn] of lines 253-280.  [fuel] bounds the depth of the
    recursion, which Go leaves to the call stack. *)
Fixpoint fn (fuel : nat) (imports : gmap string Pkg) (importpath : string)
    (st : analysis) : outcome analysis :=
  match fuel with
  | O => OutOfFuel
  | S fuel' =>
      match imports !! importpath with
      | None => Done (set_missing (λ m, {[importpath]} ∪ m) st)
      | Some p =>
          if decide (importpath ∈ checked st) then Done st
          else
            let sz := size (missing st) in
            let* st1 := push importpath st in
            let* st2 := range_imports (fn fuel' imports) importpath (Imports p) st1 in
            let st3 :=
              if decide (size (missing st2) = sz)
              then set_checked (λ c, {[importpath]} ∪ c) st2
              else st2 in
            pop importpath st3
      end
  end.

(** Lines 221-226: every package of every depset, later entries overwriting
    earlier ones with the same import path. *)
Definition collect_imports (dsm : list (string * Depset)) : gmap string Pkg :=
  foldl (λ imports e,
           foldl (λ imports' q, <[ImportPath q.2 := q.2]> imports')
                 imports (Pkgs e.2))
        ∅ dsm.

(** Lines 229-234: the fake package for cgo. *)
Definition fake_C : Pkg := {| Name := "C"; ImportPath := ""; Imports := [] |}.

Definition all_imports (dsm : list (string * Depset)) : gmap string Pkg :=
  <["C" := fake_C]> (collect_imports dsm).

(** Lines 281-283. *)
Fixpoint range_pkgs (call : string → analysis → outcome analysis)
    (pkgs : list Pkg) (st : analysis) : outcome analysis :=
  match pkgs with
  | [] => Done st
  | pkg :: pkgs' => let* st' := call (ImportPath pkg) st in range_pkgs call pkgs' st'
  end.

Definition empty_analysis : analysis :=
  {| missing := ∅; checked := ∅; stk := ∅ |}.

(** [findMissing].  The recursion budget is one more than the number of
    import paths in the table: every nested call of [fn] pushes a path of
    the table that is not on the stack yet. *)
Definition findMissing (pkgs : list Pkg) (dsm : list (string * Depset))
    : outcome (gset string) :=
  let imports := all_imports dsm in
  outcome_map missing
    (range_pkgs (fn (S (size imports)) imports) pkgs empty_analysis).

(** ** The unmemoized traversal the memoization is compared with

    The same depth-first walk with the same cycle guard and without the
    [checked] set: the visitation stack is passed down, the missing set is
    threaded through. *)
Fixpoint traverse (fuel : nat) (imports : gmap string Pkg) (importpath : string)
    (stack : gset string) (m : gset string) : outcome (gset string) :=
  match fuel with
  | O => OutOfFuel
  | S fuel' =>
      match imports !! importpath with
      | None => Done ({[importpath]} ∪ m)
      | Some p =>
          if decide (importpath ∈ stack) then Panicked (ImportLoop importpath stack)
          else range_imports
                 (λ i m', traverse fuel' imports i ({[importpath]} ∪ stack) m')
                 importpath (Imports p) m
      end
  end.

(** Every target is traversed on its own, from an empty stack and an empty
    missing set; the results are united. *)
Fixpoint findMissing_unmemoized_from (fuel : nat) (imports : gmap string Pkg)
    (pkgs : list Pkg) : outcome (gset string) :=
  match pkgs with
  | [] => Done ∅
  | pkg :: pkgs' =>
      let* m := traverse fuel imports (ImportPath pkg) ∅ ∅ in
      outcome_map (λ r, m ∪ r) (findMissing_unmemoized_from fuel imports pkgs')
  end.

Definition findMissing_unmemoized (pkgs : list Pkg) (dsm : list (string * Depset))
    : outcome (gset string) :=
  let imports := all_imports dsm in
  findMissing_unmemoized_from (S (size imports)) imports pkgs.

(** ** Small inputs *)

Definition mkPkg (path : string) (imps : list string) : Pkg :=
  {| Name := path; ImportPath := path; Imports := imps |}.

Definition mkDepset (root : string) (ps : list Pkg) : Depset :=
  {| Root := root; Prefix := ""; Pkgs := (λ p, (ImportPath p, p)) <$> ps |}.

(** * The command: manifest, collaborators and [fetch] *)

(** ** Manifest (package [vendor]) *)

Record Dependency := {
  Importpath : string;
  Repository : string;
  Revision : string;
  Branch : string;
  Path : string
}.

Record Manifest := { Dependencies : list Dependency }.

(** What a call that returns [(value, error)] gives back. *)
Inductive res (A : Type) :=
  | Success (a : A)
  | Failure (err : string).
Arguments Success {A} a.
Arguments Failure {A} err.

(** Modelled from the spec: [Manifest.HasImportpath] of package [vendor] is
    not among the sources; section 4.1 gives [HasImportPath(Manifest, path)
    -> bool], and section 3 makes the import path the key of a dependency. *)
Definition HasImportpath (m : Manifest) (path : string) : bool :=
  bool_decide (path ∈ Importpath <$> Dependencies m).

(** Modelled from the spec: [Manifest.AddDependency] of package [vendor] is
    not among the sources; section 4.1: it fails with a duplicate-import
    error if the import path is already present, and otherwise adds the
    dependency to the (ordered) collection. *)
Definition AddDependency (m : Manifest) (dep : Dependency) : res Manifest :=
  if HasImportpath m (Importpath dep) then Failure "already registered"
  else Success {| Dependencies := Dependencies m ++ [dep] |}.

(** ** Collaborators

    Everything [fetch] calls outside [fetch.go]: repository deduction and
    checkout, the working copy, the directory copy, the package loader, the
    manifest file, and the path helpers.  [Ext] is whatever state they keep
    outside the program (network, temporary directories, the disk beside
    the vendor tree); [Tree] is the vendor tree.  The manifest file is kept
    apart from both: it is changed by [vendor.WriteManifest] alone, and
    there is one such file, whatever [manifestFile()] is. *)
Record collaborators := {
  Ext : Type;
  Tree : Type;
  Repo : Type;
  WorkingCopy : Type;
  (* vendor.DeduceRemoteRepo(path, insecure) *)
  DeduceRemoteRepo : string → bool → Ext → res (Repo * string) * Ext;
  (* repo.URL(), repo.Checkout(branch, tag, revision) *)
  URL : Repo → string;
  Checkout : Repo → string → string → string → Ext → res WorkingCopy * Ext;
  (* wc.Revision(), wc.Branch(), wc.Dir(), wc.Destroy() *)
  WC_Revision : WorkingCopy → Ext → res string * Ext;
  WC_Branch : WorkingCopy → Ext → res string * Ext;
  WC_Dir : WorkingCopy → string;
  WC_Destroy : WorkingCopy → Ext → option string * Ext;
  (* fileutils.Copypath(dst, src) *)
  Copypath : string → string → Tree → Ext → option string * Tree * Ext;
  (* vendor.LoadPaths(paths...) *)
  LoadPaths : list (string * string) → Tree → Ext
              → res (list (string * Depset)) * Ext;
  (* whether reading, respectively writing, the manifest file fails *)
  read_fault : Ext → option string * Ext;
  write_fault : Manifest → Ext → option string * Ext;
  (* url.Parse: host and path of the parsed URL *)
  url_Parse : string → res (string * string);
  (* filepath.Join, filepath.FromSlash, runtime.GOROOT() *)
  Join : string → string → string;
  FromSlash : string → string;
  GOROOT : string;
  (* vendorDir(global), manifestFile() of package main *)
  vendorDir : bool → string;
  manifestFile : string
}.

(** ** State and results of the command *)

Section command.
Context (K : collaborators).

(** The calls made so far, in order.  The trace has no counterpart in the
    source; it records what the program did to its collaborators. *)
Inductive event :=
  | FetchCalled (path : string) (recurse global : bool)
  | ManifestRead (ok : bool)
  | RepoDeduced (path : string) (insecure : bool) (ok : bool)
  | CheckoutCalled (repo : Repo K) (branch tag revision : string) (ok : bool)
  | RevisionRead (wc : WorkingCopy K) (ok : bool)
  | BranchRead (wc : WorkingCopy K) (ok : bool)
  | Copied (dst src : string) (ok : bool)
  | ManifestWritten (m : Manifest) (ok : bool)
  | Destroyed (wc : WorkingCopy K) (ok : bool)
  | PathsLoaded (paths : list (string * string)) (ok : bool)
  | Logged (msg : string).

(** The package-level variables of lines 18-22, the manifest file, the
    vendor tree, and the state of the collaborators. *)
Record world := {
  branch : string;
  revision : string;
  tag : string;
  insecure : bool;
  manifest_file : Manifest;
  vendor_tree : Tree K;
  ext : Ext K;
  trace : list event
}.

Definition with_tag (v : string) (w : world) : world :=
  {| branch := branch w; revision := revision w; tag := v;
     insecure := insecure w; manifest_file := manifest_file w;
     vendor_tree := vendor_tree w; ext := ext w; trace := trace w |}.
Definition with_revision (v : string) (w : world) : world :=
  {| branch := branch w; revision := v; tag := tag w;
     insecure := insecure w; manifest_file := manifest_file w;
     vendor_tree := vendor_tree w; ext := ext w; trace := trace w |}.
Definition with_manifest_file (m : Manifest) (w : world) : world :=
  {| branch := branch w; revision := revision w; tag := tag w;
     insecure := insecure w; manifest_file := m;
     vendor_tree := vendor_tree w; ext := ext w; trace := trace w |}.
Definition with_vendor_tree (t : Tree K) (w : world) : world :=
  {| branch := branch w; revision := revision w; tag := tag w;
     insecure := insecure w; manifest_file := manifest_file w;
     vendor_tree := t; ext := ext w; trace := trace w |}.
Definition with_ext (e : Ext K) (w : world) : world :=
  {| branch := branch w; revision := revision w; tag := tag w;
     insecure := insecure w; manifest_file := manifest_file w;
     vendor_tree := vendor_tree w; ext := e; trace := trace w |}.
Definition record (ev : event) (w : world) : world :=
  {| branch := branch w; revision := revision w; tag := tag w;
     insecure := insecure w; manifest_file := manifest_file w;
     vendor_tree := vendor_tree w; ext := ext w; trace := trace w ++ [ev] |}.

(** The events added between two worlds. *)
Definition events_since (w w' : world) : list event :=
  drop (length (trace w)) (trace w').

(** [AlreadyErr] (line 78) and the other error values [fetch] returns; an
    error of a collaborator is never identical to [AlreadyErr]. *)
Inductive error :=
  | AlreadyErr
  | CouldNotLoadManifest (err : string)
  | UnableToLocateDepset (path : string)
  | External (err : string).

Inductive panic_value :=
  | UrlParsePanic (err : string)
  | AnalysisPanic (f : fault)
  | IndexOutOfRange.

(** How a call of [fetch] ends: it returns [nil], returns an error, panics,
    or has not ended within the budget of the model. *)
Inductive reply (A : Type) :=
  | Return (a : A)
  | Raise (e : error)
  | Panic (p : panic_value)
  | Unfinished.
Arguments Return {A} a.
Arguments Raise {A} e.
Arguments Panic {A} p.
Arguments Unfinished {A}.

Definition act (A : Type) : Type := world → reply A * world.

Definition ret {A} (a : A) : act A := λ w, (Return a, w).
Definition raise {A} (e : error) : act A := λ w, (Raise e, w).
Definition panic {A} (p : panic_value) : act A := λ w, (Panic p, w).
Definition unfinished {A} : act A := λ w, (Unfinished, w).

Definition bind {A B} (c : act A) (k : A → act B) : act B :=
  λ w, match c w with
       | (Return a, w') => k a w'
       | (Raise e, w') => (Raise e, w')
       | (Panic p, w') => (Panic p, w')
       | (Unfinished, w') => (Unfinished, w')
       end.

(** [if err != nil { return err }]. *)
Definition must {A} (c : act (res A)) : act A :=
  bind c (λ r, match r with
               | Success a => ret a
               | Failure err => raise (External err)
               end).

Definition must_nil (c : act (option string)) : act unit :=
  bind c (λ r, match r with
               | None => ret tt
               | Some err => raise (External err)
               end).

Definition is_ok {A} (r : res A) : bool :=
  match r with Success _ => true | Failure _ => false end.
Definition is_nil (r : option string) : bool :=
  match r with None => true | Some _ => false end.

Notation "'let!' x ':=' c 'in' k" := (bind c (λ x, k))
  (at level 10, x name, c at level 100, k at level 200).
Notation "c1 ';;;' c2" := (bind c1 (λ _, c2))
  (at level 100, c2 at level 200, right associativity).

(** *** The calls to the collaborators *)

Definition emit (ev : event) : act unit := λ w, (Return tt, record ev w).

(** [log.Printf]. *)
Definition log_Printf (msg : string) : act unit := emit (Logged msg).

(** Modelled from the spec: [vendor.ReadManifest] is not among the sources;
    section 4.1: [Load() -> Manifest | fails with ManifestIOError]; the
    manifest is always read from persistent storage. *)
Definition ReadManifest : act (res Manifest) := λ w,
  let '(fault, e) := read_fault K (ext w) in
  let w' := record (ManifestRead (is_nil fault)) (with_ext e w) in
  match fault with
  | Some err => (Return (Failure err), w')
  | None => (Return (Success (manifest_file w)), w')
  end.

(** Modelled from the spec: [vendor.WriteManifest] is not among the sources;
    section 4.1: [Save(Manifest) -> ok | fails with ManifestIOError], the
    manifest being rewritten atomically, as a whole. *)
Definition WriteManifest (m : Manifest) : act (option string) := λ w,
  let '(fault, e) := write_fault K m (ext w) in
  let w' := record (ManifestWritten m (is_nil fault)) (with_ext e w) in
  match fault with
  | Some err => (Return (Some err), w')
  | None => (Return None, with_manifest_file m w')
  end.

Definition call_DeduceRemoteRepo (path : string) (ins : bool)
    : act (res (Repo K * string)) := λ w,
  let '(r, e) := DeduceRemoteRepo K path ins (ext w) in
  (Return r, record (RepoDeduced path ins (is_ok r)) (with_ext e w)).

Definition call_Checkout (repo : Repo K) (b t r : string)
    : act (res (WorkingCopy K)) := λ w,
  let '(wc, e) := Checkout K repo b t r (ext w) in
  (Return wc, record (CheckoutCalled repo b t r (is_ok wc)) (with_ext e w)).

Definition call_Revision (wc : WorkingCopy K) : act (res string) := λ w,
  let '(r, e) := WC_Revision K wc (ext w) in
  (Return r, record (RevisionRead wc (is_ok r)) (with_ext e w)).

Definition call_Branch (wc : WorkingCopy K) : act (res string) := λ w,
  let '(r, e) := WC_Branch K wc (ext w) in
  (Return r, record (BranchRead wc (is_ok r)) (with_ext e w)).

Definition call_Destroy (wc : WorkingCopy K) : act (option string) := λ w,
  let '(r, e) := WC_Destroy K wc (ext w) in
  (Return r, record (Destroyed wc (is_nil r)) (with_ext e w)).

Definition call_Copypath (dst src : string) : act (option string) := λ w,
  let '(r, t, e) := Copypath K dst src (vendor_tree w) (ext w) in
  (Return r, record (Copied dst src (is_nil r)) (with_vendor_tree t (with_ext e w))).

Definition call_LoadPaths (paths : list (string * string))
    : act (res (list (string * Depset))) := λ w,
  let '(r, e) := LoadPaths K paths (vendor_tree w) (ext w) in
  (Return r, record (PathsLoaded paths (is_ok r)) (with_ext e w)).

(** *** stripscheme (lines 287-294) *)

Definition stripscheme (path : string) : act string :=
  match url_Parse K path with
  | Failure err => panic (UrlParsePanic err)
  | Success (host, upath) => ret (host +:+ upath)
  end.

(** *** keys, pkgs (lines 203-217) and sort.Strings *)

(** The order in which Go ranges over the map is unspecified; [keys] is only
    used sorted. *)
Definition keys (m : gset string) : list string := elements m.

Definition pkgs (m : list (string * Pkg)) : list Pkg := m.*2.

(** [sort.Strings]: ascending in the byte-wise order of strings. *)
Definition sort_Strings (l : list string) : list string := merge_sort String.le l.

(** [dsm[key]] on the depset map. *)
Fixpoint lookup_depset (dsm : list (string * Depset)) (key : string)
    : option Depset :=
  match dsm with
  | [] => None
  | (k, s) :: dsm' => if decide (k = key) then Some s else lookup_depset dsm' key
  end.

(** *** fetch (lines 80-201) *)

Definition get {A} (field : world → A) : act A := λ w, (Return (field w), w).
Definition set_tag (v : string) : act unit := λ w, (Return tt, with_tag v w).
Definition set_revision (v : string) : act unit :=
  λ w, (Return tt, with_revision v w).

(** Lines 81-141: one vendoring step, up to the destruction of the working
    copy.  It gives back [path] as line 93 has reassigned it.

    The package-level [branch], [tag] and [revision] are read at line 100.
    Line 111 is a short variable declaration: [err] exists in the scope of
    the function body, [branch] does not, so it declares a local [branch],
    which is the variable that name refers to from there on. *)
Definition fetch_step (path : string) (global : bool) : act string :=
  let! rm := ReadManifest in
  match rm with
  | Failure err => raise (CouldNotLoadManifest err)
  | Success m =>
      let! ins := get insecure in
      let! found := must (call_DeduceRemoteRepo path ins) in
      let repo := found.1 in
      let extra := found.2 in
      let! path := stripscheme path in
      if HasImportpath m path then
        log_Printf (path +:+ " is already vendored") ;;;
        raise AlreadyErr
      else
        let! b := get branch in
        let! t := get tag in
        let! r := get revision in
        let! wc := must (call_Checkout repo b t r) in
        let! rev := must (call_Revision wc) in
        let! branch_local := must (call_Branch wc) in
        let dep := {| Importpath := path; Repository := URL K repo;
                      Revision := rev; Branch := branch_local;
                      Path := extra |} in
        match AddDependency m dep with
        | Failure err => raise (External err)
        | Success m' =>
            let dst := Join K (vendorDir K global) (Importpath dep) in
            let src := Join K (WC_Dir K wc) (Path dep) in
            must_nil (call_Copypath dst src) ;;;
            must_nil (WriteManifest m') ;;;
            must_nil (call_Destroy wc) ;;;
            ret path
        end
  end.

(** Lines 156-167: the standard library root and one root per dependency
    of the manifest. *)
Definition roots (m : Manifest) (global : bool) : list (string * string) :=
  [(Join K (GOROOT K) "src", "")]
  ++ ((λ d, (Join K (vendorDir K global) (FromSlash K (Importpath d)),
             FromSlash K (Importpath d))) <$> Dependencies m).

(** Lines 187-189: [keys], [sort.Strings], [keys[0]]. *)
Definition first_key (missing : gset string) : option string :=
  head (sort_Strings (keys missing)).

(** What the loop does with the result of the call of line 191. *)
Definition after_fetch (continue : act unit) (r : reply unit * world)
    : reply unit * world :=
  match r with
  | (Return _, w') => continue w'
  | (Raise AlreadyErr, w') => (Return tt, w')
  | other => other
  end.

(** Lines 153-198: the loop [ForLoop].  [fetch_rec] is [fetch] itself, called
    at line 191; [n] bounds the number of iterations.  Leaving the loop, by
    [done] or by [break ForLoop], reaches [return nil] of line 200. *)
Fixpoint ForLoop (fetch_rec : string → bool → bool → act unit) (n : nat)
    (path : string) (global : bool) : act unit :=
  match n with
  | O => unfinished
  | S n' =>
      let! m := must ReadManifest in
      let! dsm := must (call_LoadPaths (roots m global)) in
      match lookup_depset dsm (Join K (vendorDir K global) path) with
      | None => raise (UnableToLocateDepset path)
      | Some is_ =>
          match findMissing (pkgs (Pkgs is_)) dsm with
          | Panicked f => panic (AnalysisPanic f)
          | OutOfFuel => unfinished
          | Done missing =>
              if decide (size missing = 0) then ret tt
              else
                match first_key missing with
                | None => panic IndexOutOfRange
                | Some pkg =>
                    log_Printf ("fetching recursive dependency " +:+ pkg) ;;;
                    λ w, after_fetch (ForLoop fetch_rec n' path global)
                                     (fetch_rec pkg false global w)
                end
          end
      end
  end.

(** [fetch].  [fuel] bounds the depth of the recursion and the number of
    iterations of the loop.  Lines 149-151 assign the local [branch] of line
    111 and the package-level [tag] and [revision]. *)
Fixpoint fetch (fuel : nat) (path : string) (recurse global : bool) : act unit :=
  match fuel with
  | O => unfinished
  | S fuel' =>
      emit (FetchCalled path recurse global) ;;;
      let! path := fetch_step path global in
      if negb recurse then ret tt
      else
        let branch_local := "" in
        set_tag "" ;;;
        set_revision "" ;;;
        ForLoop (fetch fuel') fuel' path global
  end.
End command.

Arguments Return {A} a.
Arguments Raise {A} e.
Arguments Panic {A} p.
Arguments Unfinished {A}.

Arguments FetchCalled {K} path recurse global.
Arguments ManifestRead {K} ok.
Arguments RepoDeduced {K} path insecure ok.
Arguments CheckoutCalled {K} repo branch tag revision ok.
Arguments RevisionRead {K} wc ok.
Arguments BranchRead {K} wc ok.
Arguments Copied {K} dst src ok.
Arguments ManifestWritten {K} m ok.
Arguments Destroyed {K} wc ok.
Arguments PathsLoaded {K} paths ok.
Arguments Logged {K} msg.
Arguments branch {K} w.
Arguments revision {K} w.
Arguments tag {K} w.
Arguments insecure {K} w.
Arguments manifest_file {K} w.
Arguments vendor_tree {K} w.
Arguments ext {K} w.
Arguments trace {K} w.
Arguments events_since {K} w w'.
Arguments with_tag {K} v w.
Arguments with_revision {K} v w.
Arguments with_manifest_file {K} m w.
Arguments with_vendor_tree {K} t w.
Arguments with_ext {K} e w.
Arguments record {K} ev w.

(** ** cmdFetch.Run (lines 63-74)

    The package-level [noRecurse] and [global] are set from the flags before
    [Run] is called and [fetch.go] never assigns them: they are arguments
    here.  [Run] assigns the package-level [recurse], which [fetch.go] reads
    nowhere else (inside [fetch] the name is the parameter). *)
Inductive usage_error :=
  | ImportPathMissing
  | MoreThanOneImportPath.

Definition Run (K : collaborators) (fuel : nat) (noRecurse global : bool)
    (args : list string) (w : world K) : (usage_error + reply unit) * world K :=
  match args with
  | [] => (inl ImportPathMissing, w)
  | [path] =>
      let recurse := negb noRecurse in
      let r := fetch K fuel path recurse global w in
      (inr r.1, r.2)
  | _ => (inl MoreThanOneImportPath, w)
  end.

(** ** A test double for the collaborators

    Repositories and working copies are named by strings, the vendor tree is
    the list of the directories copied into it, and the state of the
    collaborators is the list of the working copies that exist.  [graph]
    gives the imports of the package found under an import path; [broken]
    names the call that fails. *)
Inductive breakage :=
  | NothingFails | DeduceFails | RevisionFails | BranchFails | CopyFails
  | WriteFails.

Definition demo (broken : breakage) (graph : string → list string)
    : collaborators := {|
  Ext := list string;
  Tree := list string;
  Repo := string;
  WorkingCopy := string;
  DeduceRemoteRepo path ins e :=
    (match broken with
     | DeduceFails => Failure "unable to determine remote"
     | _ => Success ("https://" +:+ path, "")
     end, e);
  URL repo := repo;
  Checkout repo b t r e := (Success ("/tmp/" +:+ repo), ("/tmp/" +:+ repo) :: e);
  WC_Revision wc e :=
    (match broken with
     | RevisionFails => Failure "no revision"
     | _ => Success "0123abc"
     end, e);
  WC_Branch wc e :=
    (match broken with
     | BranchFails => Failure "no branch"
     | _ => Success "master"
     end, e);
  WC_Dir wc := wc;
  WC_Destroy wc e := (None, filter (λ d, d ≠ wc) e);
  Copypath dst src t e :=
    match broken with
    | CopyFails => (Some "copy failed", t, e)
    | _ => (None, t ++ [dst], e)
    end;
  LoadPaths paths t e :=
    (Success ((λ rp : string * string,
                 (rp.1, {| Root := rp.1; Prefix := rp.2;
                           Pkgs := if decide (rp.1 ∈ t)
                                   then [(rp.2, mkPkg rp.2 (graph rp.2))]
                                   else [] |})) <$> paths), e);
  read_fault e := (None, e);
  write_fault m e :=
    (match broken with
     | WriteFails => Some "disk full"
     | _ => None
     end, e);
  url_Parse p := Success (p, "");
  Join a b := a +:+ "/" +:+ b;
  FromSlash p := p;
  GOROOT := "/go";
  vendorDir g := if g then "/gopath/src" else "vendor";
  manifestFile := "vendor/manifest"
|}.

(** The world of [gvt fetch -branch b -revision rev ...] in a project whose
    manifest is [m] and whose vendor tree is empty. *)
Definition demo_world broken graph (b rev : string) (m : Manifest)
    : world (demo broken graph) :=
  Build_world (demo broken graph) b rev "" false m [] [] [].

(** The selectors passed to [Checkout], call by call. *)
Definition checkout_selectors {K} (evs : list (event K))
    : list (string * string * string) :=
  omap (λ ev, match ev with
              | CheckoutCalled _ b t r _ => Some (b, t, r)
              | _ => None
              end) evs.

(** The import paths [fetch] was called for, call by call. *)
Definition fetched_paths {K} (evs : list (event K)) : list string :=
  omap (λ ev, match ev with
              | FetchCalled path _ _ => Some path
              | _ => None
              end) evs.

(** The working copies obtained, and those destroyed. *)
Definition checked_out {K} (evs : list (event K)) : list (Repo K) :=
  omap (λ ev, match ev with
              | CheckoutCalled repo _ _ _ true => Some repo
              | _ => None
              end) evs.

Definition destroyed {K} (evs : list (event K)) : list (WorkingCopy K) :=
  omap (λ ev, match ev with
              | Destroyed wc _ => Some wc
              | _ => None
              end) evs.

Definition app_graph (path : string) : list string :=
  if decide (path = "app") then ["dep"; "C"] else [].

(** A project whose package imports two packages that are not vendored. *)
Definition two_graph (path : string) : list string :=
  if decide (path = "app") then ["zzz/pkg"; "aaa/pkg"] else [].

Definition app_dependency : Dependency :=
  {| Importpath := "app"; Repository := "https://app"; Revision := "0123abc";
     Branch := "master"; Path := "" |}.

(** The world after "app" has been vendored. *)
Definition app_vendored broken graph : world (demo broken graph) :=
  Build_world (demo broken graph) "" "" "" false
    {| Dependencies := [app_dependency] |} ["vendor/app"] [] [].

(** * Vocabulary of the properties *)

(** [edge G x y]: the package [x] of the table [G] imports [y], and [y] is
    not [x] itself (line 268 skips such an import). *)
Definition edge (G : gmap string Pkg) (x y : string) : Prop :=
  ∃ p, G !! x = Some p ∧ y ∈ Imports p ∧ y ≠ x.

(** [leads_to G pkgs q]: some target leads to [q] through packages of the
    table, self imports not counted. *)
Definition leads_to (G : gmap string Pkg) (pkgs : list Pkg) (q : string) : Prop :=
  ∃ pkg, pkg ∈ pkgs ∧ rtc (edge G) (ImportPath pkg) q.

(** [on_cycle G q]: [q] is on a cycle of at least two packages of the
    table. *)
Definition on_cycle (G : gmap string Pkg) (q : string) : Prop := tc (edge G) q q.

(** [traverses G x stack m o]: some budget lets the traversal of [x] end
    with [o]. *)
Definition traverses (G : gmap string Pkg) (x : string) (stack m : gset string)
    (o : outcome (gset string)) : Prop :=
  o ≠ OutOfFuel ∧ ∃ fuel, traverse fuel G x stack m = o.

(** The same for the loop over the imports of [x]. *)
Definition ranges (G : gmap string Pkg) (x : string) (stack : gset string)
    (imps : list string) (m : gset string) (o : outcome (gset string)) : Prop :=
  o ≠ OutOfFuel ∧
  ∃ fuel, range_imports (λ i m', traverse fuel G i stack m') x imps m = o.

(** The meaning of the [checked] set: every checked package has a traversal
    that returns without adding to the current missing set. *)
Definition memo_sound (G : gmap string Pkg) (st : analysis) : Prop :=
  ∀ c, c ∈ checked st →
    ∃ stack, traverses G c stack (missing st) (Done (missing st)).

(** Every package on the stack leads to the package about to be visited. *)
Definition stack_leads_to (G : gmap string Pkg) (st : analysis)
    (importpath : string) : Prop :=
  ∀ s, s ∈ stk st → tc (edge G) s importpath.

(** [imports_directly G x y]: the package [x] of the table imports [y],
    itself included. *)
Definition imports_directly (G : gmap string Pkg) (x y : string) : Prop :=
  ∃ p, G !! x = Some p ∧ y ∈ Imports p.

(** The table holds a cycle of imports among its packages. *)
Definition has_import_cycle (G : gmap string Pkg) : Prop :=
  ∃ x, tc (imports_directly G) x x.

(** The depset map with one root [r] holding the packages [ps]. *)
Definition one_root (r : string) (ps : list Pkg) : list (string * Depset) :=
  [(r, mkDepset r ps)].

(** [same_selectors w w']: from [w] to [w'] the package-level [branch],
    [tag] and [revision] have not changed, and every [Checkout] made in
    between was passed exactly these three. *)
Definition same_selectors {K} (w w' : world K) : Prop :=
  branch w' = branch w ∧ tag w' = tag w ∧ revision w' = revision w ∧
  ∃ evs, trace w' = trace w ++ evs ∧
         Forall (λ s, s = (branch w, tag w, revision w)) (checkout_selectors evs).

(** The packages of all depsets, in the order lines 222-226 range over
    them. *)
Definition all_pkgs (dsm : list (string * Depset)) : list (string * Pkg) :=
  dsm ≫= (λ e, Pkgs e.2).

(** No two dependencies of the manifest have the same import path. *)
Definition unique_paths (m : Manifest) : Prop :=
  NoDup (Importpath <$> Dependencies m).

(** [manifest_extends w w']: the manifest file of [w'] is that of [w] with
    dependencies added at the end, and has no import path twice if that of
    [w] has none. *)
Definition manifest_extends {K} (w w' : world K) : Prop :=
  (∃ deps, Dependencies (manifest_file w')
           = Dependencies (manifest_file w) ++ deps) ∧
  (unique_paths (manifest_file w) → unique_paths (manifest_file w')).

(** * The graph analysis: properties *)

Example findMissing_all_present :
  findMissing [mkPkg "A" ["B"]] [("r", mkDepset "r" [mkPkg "A" ["B"]; mkPkg "B" []])]
  = Done ∅.
Proof. vm_compute. reflexivity. Qed.

Example findMissing_one_absent :
  findMissing [mkPkg "A" ["B"]] [("r", mkDepset "r" [mkPkg "A" ["B"]; mkPkg "B" ["D"]])]
  = Done {["D"]}.
Proof. vm_compute. reflexivity. Qed.


Section range_imports.
Context {S : Type}.
Implicit Types (call : string → S → outcome S) (st : S).

(** Hoare-style rule for the loop over the imports: [I] holds between
    the calls, [F] describes the ways the loop may be left early. *)
Lemma range_imports_rule (I : S → Prop) (F : outcome S → Prop)
    call importpath imps st :
  I st →
  (∀ i s, i ∈ imps → i ≠ importpath → I s →
     match call i s with Done s' => I s' | o => F o end) →
  match range_imports call importpath imps st with
  | Done s' => I s'
  | o => F o
  end.
Proof.
  revert st. induction imps as [|i imps IH]; intros st HI Hcall; simpl.
  - done.
  - case_decide as Hi.
    + apply IH; [done|]. intros j s Hj. apply Hcall. by right.
    + specialize (Hcall i st (list_elem_of_here _ _) Hi HI) as Hc.
      destruct (call i st) as [s'| |]; simpl; try done.
      apply IH; [done|]. intros j s Hj. apply Hcall. by right.
Qed.

(** When the loop returns, every import that is not the package itself
    was called, from a state satisfying the invariant, and returned. *)
Lemma range_imports_called (I : S → Prop) call importpath imps st st' i :
  I st →
  (∀ j s s', j ∈ imps → j ≠ importpath → I s → call j s = Done s' → I s') →
  range_imports call importpath imps st = Done st' →
  i ∈ imps → i ≠ importpath →
  ∃ s s', I s ∧ call i s = Done s'.
Proof.
  revert st. induction imps as [|j imps IH]; intros st HI Hcall Hrun Hi Hne.
  - by apply elem_of_nil in Hi.
  - simpl in Hrun. case_decide as Hj.
    + apply elem_of_cons in Hi as [->|Hi]; [done|].
      eapply IH; eauto. intros k s s' Hk. apply Hcall. by right.
    + destruct (call j st) as [s1| |] eqn:Hc; simpl in Hrun; try done.
      apply elem_of_cons in Hi as [->|Hi]; [by eauto|].
      eapply (IH s1); eauto.
      * apply (Hcall j st s1); [by left|done..].
      * intros k s s' Hk. apply Hcall. by right.
Qed.
End range_imports.

Section range_imports_compare.
Context {S : Type}.
Implicit Types (call : string → S → outcome S) (st : S).

(** Two bodies that agree wherever the first one does not run out of
    budget give the same loop. *)
Lemma range_imports_more_fuel call call' importpath imps st :
  (∀ i s, call i s ≠ OutOfFuel → call' i s = call i s) →
  range_imports call importpath imps st ≠ OutOfFuel →
  range_imports call' importpath imps st = range_imports call importpath imps st.
Proof.
  intros Hagree. revert st. induction imps as [|i imps IH]; intros st Hrun; simpl in *.
  - done.
  - case_decide; [by apply IH|].
    destruct (call i st) as [s1| |] eqn:Hc; simpl in *.
    + rewrite Hagree, Hc by congruence. simpl. by apply IH.
    + rewrite Hagree, Hc by congruence. done.
    + done.
Qed.

(** A loop that returns still returns, with the same result, under a body
    that returns the same wherever the first one returns. *)
Lemma range_imports_same_Done call call' importpath imps st st' :
  (∀ i s s', i ∈ imps → i ≠ importpath → call i s = Done s' → call' i s = Done s') →
  range_imports call importpath imps st = Done st' →
  range_imports call' importpath imps st = Done st'.
Proof.
  revert st. induction imps as [|i imps IH]; intros st Hagree Hrun; simpl in *.
  - done.
  - case_decide as Hi.
    + apply IH; [|done]. intros j s s' Hj. apply Hagree. by right.
    + destruct (call i st) as [s1| |] eqn:Hc; simpl in *; try done.
      rewrite (Hagree i st s1) by (done || by left). simpl.
      apply IH; [|done]. intros j s s' Hj. apply Hagree. by right.
Qed.

(** A body that commutes with a change [g] of the state gives a loop that
    commutes with it. *)
Lemma range_imports_frame (g : S → S) call importpath imps st :
  (∀ i s, call i (g s) = outcome_map g (call i s)) →
  range_imports call importpath imps (g st)
  = outcome_map g (range_imports call importpath imps st).
Proof.
  intros Hcomm. revert st. induction imps as [|i imps IH]; intros st; simpl.
  - done.
  - case_decide; [by apply IH|].
    rewrite Hcomm. destruct (call i st) as [s1| |]; simpl; [apply IH|done..].
Qed.
End range_imports_compare.

Section traversal.
Context (G : gmap string Pkg).
Implicit Types (x y q importpath : string) (stack m : gset string).


Lemma edge_present x y : edge G x y → is_Some (G !! x).
Proof. intros (p & Hp & _). eauto. Qed.

Lemma edge_absent_rtc x q : G !! x = None → rtc (edge G) x q → q = x.
Proof.
  intros Hx Hr. destruct Hr as [|x y z (p & Hp & _) _]; [done|congruence].
Qed.

Lemma edge_cycle_step x : tc (edge G) x x → ∃ y, edge G x y ∧ rtc (edge G) y x.
Proof.
  intros Hc. inversion Hc as [? ? He|? y ? He Ht]; subst.
  - destruct He as (p & _ & _ & Hne). done.
  - exists y. split; [done|]. by apply tc_rtc.
Qed.

(** *** Budget *)

Lemma traverse_more_fuel fuel fuel' importpath stack m :
  fuel ≤ fuel' →
  traverse fuel G importpath stack m ≠ OutOfFuel →
  traverse fuel' G importpath stack m = traverse fuel G importpath stack m.
Proof.
  revert fuel' importpath stack m.
  induction fuel as [|fuel IH]; intros fuel' x stack m Hle Hrun; [done|].
  destruct fuel' as [|fuel']; [lia|]. simpl in *.
  destruct (G !! x) as [p|]; [|done].
  case_decide; [done|].
  apply range_imports_more_fuel; [|done].
  intros i s Hs. apply IH; [lia|done].
Qed.

Lemma traverse_enough_fuel fuel importpath stack m :
  stack ⊆ dom G →
  size G < fuel + size stack →
  traverse fuel G importpath stack m ≠ OutOfFuel.
Proof.
  revert importpath stack m.
  induction fuel as [|fuel IH]; intros x stack m Hsub Hsz.
  - apply subseteq_size in Hsub. rewrite size_dom in Hsub. lia.
  - simpl. destruct (G !! x) as [p|] eqn:Hx; [|done].
    case_decide as Hin; [done|].
    pose proof (range_imports_rule (λ _, True) (λ o, o ≠ OutOfFuel)
      (λ i m', traverse fuel G i ({[x]} ∪ stack) m') x (Imports p) m I) as Hrule.
    destruct (range_imports _ x (Imports p) m) eqn:Hrun; try done.
    apply Hrule. intros i s _ _ _.
    assert (traverse fuel G i ({[x]} ∪ stack) s ≠ OutOfFuel) as Hne.
    { apply IH.
      - apply union_subseteq. split; [|done].
        apply singleton_subseteq_l, elem_of_dom. eauto.
      - rewrite size_union, size_singleton by set_solver. lia. }
    destruct (traverse fuel G i ({[x]} ∪ stack) s); done.
Qed.

(** *** The only fault of the traversal is the import loop *)

Lemma traverse_fault fuel importpath stack m p :
  traverse fuel G importpath stack m = Panicked p → ∃ v s, p = ImportLoop v s.
Proof.
  revert importpath stack m p.
  induction fuel as [|fuel IH]; intros x stack m p Hrun; [done|].
  simpl in Hrun. destruct (G !! x) as [pk|]; [|done].
  case_decide; [naive_solver|].
  pose proof (range_imports_rule (λ _, True)
      (λ o, ∀ p, o = Panicked p → ∃ v s, p = ImportLoop v s)
      (λ i m', traverse fuel G i ({[x]} ∪ stack) m') x (Imports pk) m I) as Hrule.
  rewrite Hrun in Hrule. apply Hrule; [|done].
  intros i s _ _ _.
  destruct (traverse fuel G i ({[x]} ∪ stack) s) eqn:Hi; try done.
  intros ? [= <-]. eauto.
Qed.

(** *** The missing set only grows, independently of what it held *)

Lemma traverse_frame fuel importpath stack (X m : gset string) :
  traverse fuel G importpath stack (X ∪ m)
  = outcome_map (λ r, X ∪ r) (traverse fuel G importpath stack m).
Proof.
  revert importpath stack m.
  induction fuel as [|fuel IH]; intros x stack m; [done|].
  simpl. destruct (G !! x) as [p|].
  - case_decide; [done|].
    apply (range_imports_frame (λ r, X ∪ r)). intros i s. apply IH.
  - simpl. f_equal. set_solver.
Qed.
End traversal.

Section traversal_reach.
Context (G : gmap string Pkg).
Implicit Types (x y q importpath : string) (stack m : gset string).

(** A traversal of [x] that returns has called every import [y] of [x]
    (other than [x]), with [x] on the stack, and that call returned. *)
Lemma traverse_Done_edge fuel x y stack m m' :
  traverse (S fuel) G x stack m = Done m' →
  edge G x y →
  (x ∉ stack) ∧ ∃ m1 m2, traverse fuel G y ({[x]} ∪ stack) m1 = Done m2.
Proof.
  intros Hrun (p & Hp & Hy & Hne). simpl in Hrun. rewrite Hp in Hrun.
  case_decide as Hin; [done|]. split; [done|].
  destruct (range_imports_called (λ _, True) _ _ _ _ _ y I (λ _ _ _ _ _ _ _, I)
              Hrun Hy Hne) as (m1 & m2 & _ & Hcall).
  eauto.
Qed.

(** No traversal returns when it starts below a package that is on the
    stack and can be reached again. *)
Lemma traverse_reaches_stack x s :
  rtc (edge G) x s →
  ∀ fuel stack m m',
    s ∈ stack → is_Some (G !! s) → traverse fuel G x stack m ≠ Done m'.
Proof.
  induction 1 as [x|x y s Hxy _ IH]; intros fuel stack m m' Hs [p Hp] Hrun.
  - destruct fuel as [|fuel]; [done|]. simpl in Hrun. rewrite Hp in Hrun.
    by rewrite decide_True in Hrun.
  - destruct fuel as [|fuel]; [done|].
    destruct (traverse_Done_edge _ _ _ _ _ _ Hrun Hxy) as (_ & m1 & m2 & Hy).
    eapply IH; [|by eauto|exact Hy]. set_solver.
Qed.

(** No traversal returns when a cycle of at least two packages can be
    reached from its start. *)
Lemma traverse_reaches_cycle x c :
  rtc (edge G) x c → tc (edge G) c c →
  ∀ fuel stack m m', traverse fuel G x stack m ≠ Done m'.
Proof.
  intros Hxc Hcyc. induction Hxc as [c|x y c Hxy _ IH];
    intros fuel stack m m' Hrun; (destruct fuel as [|fuel]; [done|]).
  - destruct (edge_cycle_step G c Hcyc) as (y & Hcy & Hyc).
    destruct (traverse_Done_edge _ _ _ _ _ _ Hrun Hcy) as (_ & m1 & m2 & Hy).
    eapply (traverse_reaches_stack y c Hyc); [|by eapply edge_present|exact Hy].
    set_solver.
  - destruct (traverse_Done_edge _ _ _ _ _ _ Hrun Hxy) as (_ & m1 & m2 & Hy).
    by eapply IH.
Qed.

(** A traversal that returned returns the same under any stack whose
    packages all lead to its start. *)
Lemma traverse_other_stack fuel x stack0 stack m m' :
  traverse fuel G x stack0 m = Done m' →
  (∀ s, s ∈ stack → tc (edge G) s x) →
  traverse fuel G x stack m = Done m'.
Proof.
  revert x stack0 stack m m'.
  induction fuel as [|fuel IH]; intros x stack0 stack m m' Hrun Hstack; [done|].
  assert (G !! x = None ∨ x ∉ stack) as Hx.
  { destruct (G !! x) as [p|] eqn:Hp; [right|by left].
    intros Hin. destruct (edge_cycle_step G x (Hstack x Hin)) as (y & Hxy & Hyx).
    destruct (traverse_Done_edge _ _ _ _ _ _ Hrun Hxy) as (_ & m1 & m2 & Hy).
    eapply (traverse_reaches_stack y x Hyx); [|by eauto|exact Hy]. set_solver. }
  simpl in *. destruct (G !! x) as [p|] eqn:Hp; [|done].
  destruct Hx as [|Hx]; [done|].
  case_decide; [done|]. rewrite decide_False by done.
  eapply range_imports_same_Done; [|exact Hrun].
  intros i s s' Hi Hne Hcall. simpl in Hcall. eapply IH; [exact Hcall|].
  assert (edge G x i) as Hxi by (exists p; done).
  intros t [->%elem_of_singleton|Ht]%elem_of_union.
  - by apply tc_once.
  - eapply tc_r; eauto.
Qed.

(** What a traversal that returns has added to the missing set: the
    paths absent from the table that its start leads to. *)
Lemma traverse_Done_missing fuel x stack m m' :
  traverse fuel G x stack m = Done m' →
  ∀ q, q ∈ m' ↔ q ∈ m ∨ (rtc (edge G) x q ∧ G !! q = None).
Proof.
  revert x stack m m'.
  induction fuel as [|fuel IH]; intros x stack m m' Hrun q; [done|].
  simpl in Hrun. destruct (G !! x) as [p|] eqn:Hp.
  - case_decide as Hin; [done|].
    assert (∀ imps m0 m1,
      range_imports (λ i m2, traverse fuel G i ({[x]} ∪ stack) m2) x imps m0
        = Done m1 →
      q ∈ m1 ↔ q ∈ m0 ∨
        ∃ i, i ∈ imps ∧ i ≠ x ∧ rtc (edge G) i q ∧ G !! q = None) as Hloop.
    { induction imps as [|i imps IHl]; intros m0 m1 Hl; simpl in Hl.
      - injection Hl as <-. set_solver.
      - case_decide as Hi.
        + rewrite (IHl _ _ Hl). subst i. set_solver.
        + destruct (traverse fuel G i ({[x]} ∪ stack) m0) as [m2| |] eqn:Hc;
            simpl in Hl; try done.
          rewrite (IHl _ _ Hl), (IH _ _ _ _ Hc q). set_solver. }
    rewrite (Hloop _ _ _ Hrun). apply or_iff_compat_l. split.
    + intros (i & Hi & Hne & Hr & Hq). split; [|done].
      eapply rtc_l; [|exact Hr]. by exists p.
    + intros [Hr Hq]. apply rtc_inv in Hr as [->|(y & (p' & Hp' & Hy & Hne) & Hr)].
      * congruence.
      * exists y. by simplify_eq.
  - injection Hrun as <-. rewrite elem_of_union, elem_of_singleton. split.
    + intros [->|?]; [right|by left]. by split.
    + intros [?|[Hr Hq]]; [by right|left]. by eapply edge_absent_rtc.
Qed.
End traversal_reach.

(** ** The traversal with an unspecified, sufficient budget *)

Section traverses.
Context (G : gmap string Pkg).
Implicit Types (x y q importpath : string) (stack m : gset string).
Implicit Types (o : outcome (gset string)).



Lemma traverses_unique x stack m o1 o2 :
  traverses G x stack m o1 → traverses G x stack m o2 → o1 = o2.
Proof.
  intros [Hn1 [f1 H1]] [Hn2 [f2 H2]].
  rewrite <-H1, <-H2.
  rewrite <-(traverse_more_fuel G f1 (f1 `max` f2)) by (lia || congruence).
  rewrite <-(traverse_more_fuel G f2 (f1 `max` f2)) by (lia || congruence).
  done.
Qed.

Lemma ranges_nil x stack m : ranges G x stack [] m (Done m).
Proof. split; [done|]. by exists 0. Qed.

Lemma ranges_skip x stack imps m o :
  ranges G x stack imps m o → ranges G x stack (x :: imps) m o.
Proof.
  intros [Hn [f Hr]]. split; [done|]. exists f. simpl.
  by rewrite decide_True.
Qed.

Lemma ranges_fault x stack i imps m p :
  i ≠ x → traverses G i stack m (Panicked p) →
  ranges G x stack (i :: imps) m (Panicked p).
Proof.
  intros Hne [_ [f Hr]]. split; [done|]. exists f. simpl.
  rewrite decide_False by done. by rewrite Hr.
Qed.

Lemma ranges_cons x stack i imps m m1 o :
  i ≠ x → traverses G i stack m (Done m1) → ranges G x stack imps m1 o →
  ranges G x stack (i :: imps) m o.
Proof.
  intros Hne [_ [f1 H1]] [Hn [f2 H2]]. split; [done|].
  exists (f1 `max` f2). simpl. rewrite decide_False by done.
  rewrite (traverse_more_fuel G f1) by (lia || congruence).
  rewrite H1. simpl. rewrite <-H2.
  apply range_imports_more_fuel; [|congruence].
  intros j s Hs. apply traverse_more_fuel; [lia|done].
Qed.

Lemma traverses_absent x stack m :
  G !! x = None → traverses G x stack m (Done ({[x]} ∪ m)).
Proof. intros Hx. split; [done|]. exists 1. simpl. by rewrite Hx. Qed.

Lemma traverses_loop x stack m p :
  G !! x = Some p → x ∈ stack → traverses G x stack m (Panicked (ImportLoop x stack)).
Proof.
  intros Hx Hin. split; [done|]. exists 1. simpl.
  by rewrite Hx, decide_True.
Qed.

Lemma traverses_present x stack m p o :
  G !! x = Some p → x ∉ stack →
  ranges G x ({[x]} ∪ stack) (Imports p) m o → traverses G x stack m o.
Proof.
  intros Hx Hin [Hn [f Hr]]. split; [done|]. exists (S f). simpl.
  by rewrite Hx, decide_False.
Qed.

Lemma traverses_Done_subseteq x stack m m' :
  traverses G x stack m (Done m') → m ⊆ m'.
Proof.
  intros [_ [f Hr]] q Hq. apply (traverse_Done_missing G _ _ _ _ _ Hr). by left.
Qed.

(** With the budget of [findMissing] the traversal from an empty stack
    ends the way it ends with any sufficient budget. *)
Lemma traverses_budget x m o :
  traverses G x ∅ m o → traverse (S (size G)) G x ∅ m = o.
Proof.
  intros Ho. eapply traverses_unique; [|exact Ho].
  split; [|by eauto].
  apply traverse_enough_fuel; [set_solver|]. rewrite size_empty. lia.
Qed.
End traverses.

(** ** The memoized walk [fn] against the traversal *)

Section memoized.
Context (G : gmap string Pkg).
Implicit Types (x y q importpath : string) (st : analysis).

(** A call of [fn] that returns has restored the stack and has only
    added to the missing set. *)
Lemma fn_Done fuel importpath st st' :
  fn fuel G importpath st = Done st' →
  stk st' = stk st ∧ missing st ⊆ missing st'.
Proof.
  revert importpath st st'.
  induction fuel as [|fuel IH]; intros x st st' Hrun; [done|].
  simpl in Hrun. destruct (G !! x) as [p|].
  - case_decide; [by simplify_eq|].
    unfold push in Hrun. case_decide as Hin; [done|]. simpl in Hrun.
    pose proof (range_imports_rule
      (λ s, stk s = {[x]} ∪ stk st ∧ missing st ⊆ missing s) (λ _, True)
      (fn fuel G) x (Imports p) (set_stk (λ s, {[x]} ∪ s) st)) as Hrule.
    destruct (range_imports _ x (Imports p) _) as [st2| |]; try done.
    simpl in Hrun. destruct Hrule as [Hstk Hmiss]; [done| |].
    { intros i s _ _ [Hs Hm]. destruct (fn fuel G i s) as [s'| |] eqn:Hc; [|done..].
      apply IH in Hc as [-> ?]. split; [done|]. by etrans. }
    assert (∀ st3, stk st3 = stk st2 → missing st3 = missing st2 →
              pop x st3 = Done st' → stk st' = stk st ∧ missing st ⊆ missing st')
      as Hpop.
    { intros st3 H3 Hm3. unfold pop.
      destruct (decide (x ∈ stk st3)); [|done]. intros [= <-]. simpl.
      rewrite H3, Hstk, Hm3. split; [set_solver|done]. }
    destruct (decide (size (missing st2) = size (missing st)));
      (eapply Hpop; [| |exact Hrun]; done).
  - injection Hrun as <-. simpl. split; [done|set_solver].
Qed.

(** The budget of [findMissing] is never exhausted. *)
Lemma fn_enough_fuel fuel importpath st :
  stk st ⊆ dom G →
  size G < fuel + size (stk st) →
  fn fuel G importpath st ≠ OutOfFuel.
Proof.
  revert importpath st.
  induction fuel as [|fuel IH]; intros x st Hsub Hsz.
  - apply subseteq_size in Hsub. rewrite size_dom in Hsub. lia.
  - simpl. destruct (G !! x) as [p|] eqn:Hx; [|done].
    case_decide; [done|].
    unfold push. case_decide as Hin; [done|]. simpl.
    pose proof (range_imports_rule
      (λ s, stk s = {[x]} ∪ stk st) (λ o, o ≠ OutOfFuel)
      (fn fuel G) x (Imports p) (set_stk (λ s, {[x]} ∪ s) st) eq_refl) as Hrule.
    destruct (range_imports _ x (Imports p) _) as [st2| |] eqn:Hrun; simpl.
    + unfold pop. by repeat case_decide.
    + done.
    + apply Hrule. intros i s _ _ Hs.
      assert (fn fuel G i s ≠ OutOfFuel) as Hne.
      { apply IH; rewrite Hs.
        - apply union_subseteq. split; [|done].
          apply singleton_subseteq_l, elem_of_dom. eauto.
        - rewrite size_union, size_singleton by set_solver. lia. }
      destruct (fn fuel G i s) as [s'| |] eqn:Hc; [|done..].
      apply fn_Done in Hc as [-> _]. done.
Qed.


Lemma memo_sound_grow st st' :
  memo_sound G st → checked st' = checked st → missing st ⊆ missing st' →
  memo_sound G st'.
Proof.
  intros Hst Hc Hm c Hin. rewrite Hc in Hin.
  destruct (Hst c Hin) as (stack & _ & f & Hf).
  exists stack. split; [done|]. exists f.
  replace (missing st') with (missing st' ∪ missing st) at 1 by set_solver.
  rewrite traverse_frame, Hf. simpl. f_equal. set_solver.
Qed.


(** [fn] ends the way the traversal from the same stack and missing set
    ends. *)
Lemma fn_traverses fuel importpath st :
  memo_sound G st → stack_leads_to G st importpath →
  match fn fuel G importpath st with
  | Done st' =>
      memo_sound G st' ∧
      traverses G importpath (stk st) (missing st) (Done (missing st'))
  | Panicked p => traverses G importpath (stk st) (missing st) (Panicked p)
  | OutOfFuel => True
  end.
Proof.
  revert importpath st.
  induction fuel as [|fuel IH]; intros x st Hmemo Hstack; [done|].
  simpl. destruct (G !! x) as [p|] eqn:Hx.
  2:{ split; [|by apply traverses_absent].
      eapply memo_sound_grow; [done..|]. simpl. set_solver. }
  case_decide as Hchecked.
  { split; [done|]. destruct (Hmemo x Hchecked) as (stack0 & Hn & f & Hf).
    split; [done|]. exists f. by eapply traverse_other_stack. }
  unfold push. case_decide as Hin; simpl.
  { by eapply traverses_loop. }
  set (st1 := set_stk (λ s, {[x]} ∪ s) st).
  assert (∀ imps s,
    (∀ i, i ∈ imps → i ≠ x → edge G x i) →
    memo_sound G s → stk s = {[x]} ∪ stk st →
    match range_imports (fn fuel G) x imps s with
    | Done s' =>
        (memo_sound G s' ∧ stk s' = {[x]} ∪ stk st) ∧
        ranges G x ({[x]} ∪ stk st) imps (missing s) (Done (missing s'))
    | Panicked flt => ranges G x ({[x]} ∪ stk st) imps (missing s) (Panicked flt)
    | OutOfFuel => True
    end) as Hloop.
  { induction imps as [|i imps IHl]; intros s Hedge Hms Hs; simpl.
    { split; [done|]. apply ranges_nil. }
    assert (∀ j, j ∈ imps → j ≠ x → edge G x j) as Hedge'.
    { intros j Hj. apply Hedge. by right. }
    case_decide as Hi.
    { subst i. specialize (IHl s Hedge' Hms Hs).
      destruct (range_imports (fn fuel G) x imps s) as [s'| |];
        [|by apply ranges_skip|done].
      destruct IHl as [? ?]. split; [done|]. by apply ranges_skip. }
    assert (stack_leads_to G s i) as Hlead.
    { intros t. rewrite Hs. intros [->%elem_of_singleton|Ht]%elem_of_union.
      - apply tc_once, Hedge; [by left|done].
      - eapply tc_r; [by apply Hstack|]. apply Hedge; [by left|done]. }
    specialize (IH i s Hms Hlead).
    destruct (fn fuel G i s) as [s1| |] eqn:Hc; simpl; [| |done].
    2:{ rewrite Hs in IH. by apply ranges_fault. }
    destruct IH as [Hms1 Ht]. rewrite Hs in Ht.
    apply fn_Done in Hc as [Hs1 _]. rewrite Hs in Hs1.
    specialize (IHl s1 Hedge' Hms1 Hs1).
    destruct (range_imports (fn fuel G) x imps s1) as [s'| |]; [| |done].
    - destruct IHl as [? ?]. split; [done|]. by eapply ranges_cons.
    - by eapply ranges_cons. }
  specialize (Hloop (Imports p) st1).
  destruct (range_imports (fn fuel G) x (Imports p) st1) as [st2| |]; simpl; [| |done].
  2:{ eapply traverses_present; eauto. apply Hloop; [|done..].
      intros i ??. by exists p. }
  destruct Hloop as [[Hms2 Hs2] Hr]; [by intros i ??; exists p|done..|].
  apply (traverses_present G x (stk st) (missing st) p _ Hx Hin) in Hr.
  pose proof (traverses_Done_subseteq _ _ _ _ _ Hr) as Hsub.
  assert (x ∈ stk st2) as Hin2 by (rewrite Hs2; set_solver).
  unfold pop, set_checked.
  destruct (decide (size (missing st2) = size (missing st))) as [Hsz|Hsz];
    simpl; rewrite decide_True by done; (split; [|done]).
  - assert (missing st = missing st2) as Heq.
    { apply set_subseteq_size_eq; [done|lia]. }
    intros c [->%elem_of_singleton|Hc]%elem_of_union; simpl.
    + exists (stk st). by rewrite <-Heq at 1.
    + by apply Hms2.
  - done.
Qed.
End memoized.

(** ** [findMissing] against the unmemoized analysis *)

Section analysis_equiv.
Context (G : gmap string Pkg).
Implicit Types (st : analysis) (pkgs : list Pkg).

Lemma range_pkgs_enough_fuel pkgs st :
  stk st = ∅ → range_pkgs (fn (S (size G)) G) pkgs st ≠ OutOfFuel.
Proof.
  revert st. induction pkgs as [|pkg pkgs IH]; intros st Hstk;
    cbn [range_pkgs]; [done|].
  assert (fn (S (size G)) G (ImportPath pkg) st ≠ OutOfFuel) as Hne.
  { apply fn_enough_fuel; rewrite Hstk; [set_solver|]. rewrite size_empty. lia. }
  destruct (fn _ G (ImportPath pkg) st) as [s1| |] eqn:Hc;
    cbn [outcome_bind]; [|done..].
  apply IH. apply fn_Done in Hc as [-> _]. done.
Qed.

Lemma traverses_from_empty x m o :
  traverses G x ∅ m o →
  o = outcome_map (λ r, m ∪ r) (traverse (S (size G)) G x ∅ ∅).
Proof.
  intros [Hn [f Hf]].
  replace m with (m ∪ ∅) in Hf by set_solver. rewrite traverse_frame in Hf.
  rewrite (traverses_budget G x ∅ (traverse f G x ∅ ∅)); [done|].
  split; [|by eauto].
  intros Hoof. rewrite Hoof in Hf. by subst o.
Qed.

Lemma range_pkgs_traverses fuel pkgs st :
  memo_sound G st → stk st = ∅ →
  match range_pkgs (fn fuel G) pkgs st with
  | Done st' =>
      ∃ r, findMissing_unmemoized_from (S (size G)) G pkgs = Done r ∧
           missing st' = missing st ∪ r
  | Panicked p => findMissing_unmemoized_from (S (size G)) G pkgs = Panicked p
  | OutOfFuel => True
  end.
Proof.
  revert st. induction pkgs as [|pkg pkgs IH]; intros st Hmemo Hstk;
    cbn [range_pkgs findMissing_unmemoized_from].
  { exists ∅. split; [done|set_solver]. }
  assert (stack_leads_to G st (ImportPath pkg)) as Hlead.
  { intros s. rewrite Hstk. set_solver. }
  pose proof (fn_traverses G fuel (ImportPath pkg) st Hmemo Hlead) as Hfn.
  destruct (fn fuel G (ImportPath pkg) st) as [s1| |] eqn:Hc;
    cbn [outcome_bind]; [| |done].
  - destruct Hfn as [Hmemo1 Ht]. rewrite Hstk in Ht.
    apply traverses_from_empty in Ht as Ho.
    destruct (traverse (S (size G)) G (ImportPath pkg) ∅ ∅) as [mt| |];
      cbn [outcome_map outcome_bind] in *; try done.
    injection Ho as Ho.
    apply fn_Done in Hc as [Hs1 _]. rewrite Hstk in Hs1.
    specialize (IH s1 Hmemo1 Hs1).
    destruct (range_pkgs (fn fuel G) pkgs s1) as [st'| |]; [| |done].
    + destruct IH as (r & -> & Hr). exists (mt ∪ r). split; [done|].
      rewrite Hr, Ho. set_solver.
    + by rewrite IH.
  - rewrite Hstk in Hfn. apply traverses_from_empty in Hfn as Ho.
    destruct (traverse (S (size G)) G (ImportPath pkg) ∅ ∅) as [mt| |];
      cbn [outcome_map outcome_bind] in *; try done.
Qed.
End analysis_equiv.

Lemma memo_sound_empty G : memo_sound G empty_analysis.
Proof. intros c Hc. simpl in Hc. set_solver. Qed.

(** The memoized analysis and the unmemoized one end the same way: with
    the same missing set, or with the same fault. *)
Lemma findMissing_unmemoized_eq pkgs dsm :
  findMissing pkgs dsm = findMissing_unmemoized pkgs dsm.
Proof.
  unfold findMissing, findMissing_unmemoized. cbv zeta.
  set (G := all_imports dsm).
  pose proof (range_pkgs_traverses G (S (size G)) pkgs empty_analysis
                (memo_sound_empty G) eq_refl) as Hsim.
  pose proof (range_pkgs_enough_fuel G pkgs empty_analysis eq_refl) as Hfuel.
  destruct (range_pkgs (fn (S (size G)) G) pkgs empty_analysis) as [st'| |];
    cbn [outcome_map outcome_bind]; [|done..].
  destruct Hsim as (r & -> & Hr). f_equal. rewrite Hr. simpl. set_solver.
Qed.

(** ** What the unmemoized analysis computes *)

Section unmemoized.
Context (G : gmap string Pkg).
Implicit Types (pkgs : list Pkg) (q : string).



Lemma unmemoized_from_Done fuel pkgs r :
  findMissing_unmemoized_from fuel G pkgs = Done r →
  ∀ q, q ∈ r ↔ leads_to G pkgs q ∧ G !! q = None.
Proof.
  revert r. induction pkgs as [|pkg pkgs IH]; intros r Hrun q; simpl in Hrun.
  - injection Hrun as <-. split; [set_solver|].
    intros [(pkg & Hin & _) _]. by apply elem_of_nil in Hin.
  - destruct (traverse fuel G (ImportPath pkg) ∅ ∅) as [mt| |] eqn:Ht;
      simpl in Hrun; try done.
    destruct (findMissing_unmemoized_from fuel G pkgs) as [r'| |];
      simpl in Hrun; try done.
    injection Hrun as <-.
    rewrite elem_of_union, (IH r' eq_refl q), (traverse_Done_missing G _ _ _ _ _ Ht q).
    unfold leads_to. split.
    + intros [[Hq|[Hr Hq]]|[(pkg' & Hin & Hr) Hq]]; [set_solver| |].
      * split; [|done]. exists pkg. split; [by left|done].
      * split; [|done]. exists pkg'. split; [by right|done].
    + intros [(pkg' & [->|Hin]%elem_of_cons & Hr) Hq]; [by left; right|].
      right. split; [|done]. by exists pkg'.
Qed.

Lemma unmemoized_from_cycle fuel pkgs q r :
  leads_to G pkgs q → on_cycle G q →
  findMissing_unmemoized_from fuel G pkgs ≠ Done r.
Proof.
  intros (pkg & Hin & Hr) Hcyc. revert r Hin.
  induction pkgs as [|pkg' pkgs IH]; intros r Hin Hrun; simpl in Hrun.
  - by apply elem_of_nil in Hin.
  - destruct (traverse fuel G (ImportPath pkg') ∅ ∅) as [mt| |] eqn:Ht;
      simpl in Hrun; try done.
    destruct (findMissing_unmemoized_from fuel G pkgs) as [r'| |];
      simpl in Hrun; try done.
    apply elem_of_cons in Hin as [->|Hin].
    + by eapply traverse_reaches_cycle.
    + by eapply IH.
Qed.

Lemma unmemoized_from_fault fuel pkgs p :
  findMissing_unmemoized_from fuel G pkgs = Panicked p →
  ∃ v s, p = ImportLoop v s.
Proof.
  induction pkgs as [|pkg pkgs IH]; intros Hrun; simpl in Hrun; [done|].
  destruct (traverse fuel G (ImportPath pkg) ∅ ∅) as [mt| |] eqn:Ht;
    simpl in Hrun; try done.
  - destruct (findMissing_unmemoized_from fuel G pkgs) as [r'| |];
      simpl in Hrun; try done.
    apply IH. congruence.
  - injection Hrun as <-. by eapply traverse_fault.
Qed.

Lemma unmemoized_from_enough_fuel pkgs :
  findMissing_unmemoized_from (S (size G)) G pkgs ≠ OutOfFuel.
Proof.
  induction pkgs as [|pkg pkgs IH]; cbn [findMissing_unmemoized_from]; [done|].
  assert (traverse (S (size G)) G (ImportPath pkg) ∅ ∅ ≠ OutOfFuel) as Hne.
  { apply traverse_enough_fuel; [set_solver|]. rewrite size_empty. lia. }
  destruct (traverse (S (size G)) G (ImportPath pkg) ∅ ∅) as [mt| |];
    cbn [outcome_bind]; [|done..].
  destruct (findMissing_unmemoized_from (S (size G)) G pkgs); done.
Qed.
End unmemoized.

(** ** The import table *)

Lemma all_imports_C dsm : all_imports dsm !! "C" = Some fake_C.
Proof. apply lookup_insert_eq. Qed.

Lemma all_imports_None dsm q :
  all_imports dsm !! q = None → collect_imports dsm !! q = None.
Proof.
  unfold all_imports. intros Hq.
  destruct (decide (q = "C")) as [->|Hne].
  - by rewrite lookup_insert_eq in Hq.
  - by rewrite lookup_insert_ne in Hq.
Qed.

(** Every package of every depset is in the collected table under its
    import path. *)
Lemma collect_imports_present dsm e k :
  e ∈ dsm → k ∈ Pkgs e.2 → is_Some (collect_imports dsm !! ImportPath k.2).
Proof.
  unfold collect_imports.
  assert (∀ (ks : list (string * Pkg)) (t : gmap string Pkg) q,
    is_Some (t !! q) ∨ (∃ k, k ∈ ks ∧ ImportPath k.2 = q) →
    is_Some (foldl (λ t' k, <[ImportPath k.2 := k.2]> t') t ks !! q)) as Hinner.
  { induction ks as [|k0 ks IH]; intros t q H; simpl.
    - destruct H as [?|(k1 & Hk & _)]; [done|]. by apply elem_of_nil in Hk.
    - apply IH. destruct (decide (ImportPath k0.2 = q)) as [<-|Hne].
      + left. rewrite lookup_insert_eq. eauto.
      + rewrite lookup_insert_ne by done.
        destruct H as [?|(k1 & [->|Hk]%elem_of_cons & Hq)]; [by left|done|].
        right. eauto. }
  assert (∀ (es : list (string * Depset)) (t : gmap string Pkg) q,
    is_Some (t !! q) ∨ (∃ e k, e ∈ es ∧ k ∈ Pkgs e.2 ∧ ImportPath k.2 = q) →
    is_Some (foldl (λ t' e,
       foldl (λ t'' k, <[ImportPath k.2 := k.2]> t'') t' (Pkgs e.2)) t es !! q))
    as Houter.
  { induction es as [|e0 es IH]; intros t q H; simpl.
    - destruct H as [?|(e1 & k1 & He & _)]; [done|]. by apply elem_of_nil in He.
    - apply IH.
      destruct H as [?|(e1 & k1 & [->|He]%elem_of_cons & Hk & Hq)].
      + left. apply Hinner. by left.
      + left. apply Hinner. right. eauto.
      + right. eauto. }
  intros He Hk. apply Houter. right. eauto.
Qed.

(** ** When the analysis faults *)

Section faults.
Context (G : gmap string Pkg).

(** An import loop is only ever reported for a package that is on a cycle
    the start leads to: the stack at the fault holds, beside what it held
    at the start, packages that lead to the reported one. *)
Lemma traverse_Panicked fuel x stack m v stack' :
  traverse fuel G x stack m = Panicked (ImportLoop v stack') →
  rtc (edge G) x v ∧ v ∈ stack' ∧
  ∀ s, s ∈ stack' → s ∈ stack ∨ tc (edge G) s v.
Proof.
  revert x stack m.
  induction fuel as [|fuel IH]; intros x stack m Hrun; [done|].
  simpl in Hrun. destruct (G !! x) as [p|] eqn:Hx; [|done].
  case_decide as Hin.
  { injection Hrun as <- <-. split; [done|]. split; [done|]. by left. }
  pose proof (range_imports_rule (λ _, True)
    (λ o, o = Panicked (ImportLoop v stack') →
          rtc (edge G) x v ∧ v ∈ stack' ∧
          ∀ s, s ∈ stack' → s ∈ stack ∨ tc (edge G) s v)
    (λ i m', traverse fuel G i ({[x]} ∪ stack) m') x (Imports p) m I) as Hrule.
  rewrite Hrun in Hrule. apply Hrule; [|done].
  intros i s Hi Hne _.
  destruct (traverse fuel G i ({[x]} ∪ stack) s) as [| |] eqn:Hc; try done.
  intros [= ->]. destruct (IH _ _ _ Hc) as (Hr & Hv & Hs).
  assert (edge G x i) as Hxi by (by exists p).
  split; [by eapply rtc_l|]. split; [done|].
  intros t Ht. destruct (Hs t Ht) as [[->%elem_of_singleton|?]%elem_of_union|?].
  - right. eapply tc_rtc_r; [by apply tc_once|done].
  - by left.
  - by right.
Qed.

Lemma unmemoized_from_Panicked fuel pkgs p :
  findMissing_unmemoized_from fuel G pkgs = Panicked p →
  ∃ q, leads_to G pkgs q ∧ on_cycle G q.
Proof.
  induction pkgs as [|pkg pkgs IH]; intros Hrun; simpl in Hrun; [done|].
  destruct (traverse fuel G (ImportPath pkg) ∅ ∅) as [mt| |] eqn:Ht;
    simpl in Hrun; try done.
  - destruct (findMissing_unmemoized_from fuel G pkgs) as [r'| |];
      simpl in Hrun; try done.
    destruct IH as (q & (pkg' & Hin & Hr) & Hc); [congruence|].
    exists q. split; [|done]. exists pkg'. split; [by right|done].
  - destruct (traverse_fault G _ _ _ _ _ Ht) as (v & s & ->).
    destruct (traverse_Panicked _ _ _ _ _ _ Ht) as (Hr & Hv & Hs).
    exists v. split.
    + exists pkg. split; [by left|done].
    + destruct (Hs v Hv) as [?|?]; [set_solver|done].
Qed.
End faults.

(** ** Stepping the traversal on a given table *)

Lemma traverse_step_absent fuel G x stack m :
  G !! x = None → traverse (S fuel) G x stack m = Done ({[x]} ∪ m).
Proof. intros Hx. simpl. by rewrite Hx. Qed.

Lemma traverse_step_present fuel G x stack m p :
  G !! x = Some p → x ∉ stack →
  traverse (S fuel) G x stack m
  = range_imports (λ i m', traverse fuel G i ({[x]} ∪ stack) m') x (Imports p) m.
Proof. intros Hx Hin. simpl. by rewrite Hx, decide_False. Qed.

(** * The graph analysis: results *)

(** C9.  The memoized analysis ends exactly as the unmemoized one, which
    traverses every target on its own from an empty missing set and unites
    the results: the same missing set, or the same fault. *)
Theorem findMissing_memoization_sound (pkgs : list Pkg)
    (dsm : list (string * Depset)) :
  findMissing pkgs dsm = findMissing_unmemoized pkgs dsm.
Proof. apply findMissing_unmemoized_eq. Qed.

(** What [findMissing] returns, when it returns. *)
Lemma findMissing_Done pkgs dsm M :
  findMissing pkgs dsm = Done M →
  ∀ q, q ∈ M ↔ leads_to (all_imports dsm) pkgs q ∧ all_imports dsm !! q = None.
Proof.
  rewrite findMissing_unmemoized_eq. apply unmemoized_from_Done.
Qed.

Lemma all_imports_None_iff dsm q :
  all_imports dsm !! q = None ↔ collect_imports dsm !! q = None ∧ q ≠ "C".
Proof.
  unfold all_imports. destruct (decide (q = "C")) as [->|Hne].
  - rewrite lookup_insert_eq. naive_solver.
  - rewrite lookup_insert_ne by done. naive_solver.
Qed.

(** C10.  Every path [findMissing] returns is absent from the table
    collected from the depsets: no package of any depset has it as its
    import path. *)
Theorem findMissing_reports_absent (pkgs : list Pkg)
    (dsm : list (string * Depset)) (M : gset string) (q : string) :
  findMissing pkgs dsm = Done M → q ∈ M →
  collect_imports dsm !! q = None ∧
  ∀ e k, e ∈ dsm → k ∈ Pkgs e.2 → ImportPath k.2 ≠ q.
Proof.
  intros Hrun Hq. apply (findMissing_Done _ _ _ Hrun) in Hq as [_ Hq].
  apply all_imports_None in Hq. split; [done|].
  intros e k He Hk <-.
  destruct (collect_imports_present dsm e k He Hk) as [p Hp]. congruence.
Qed.

Lemma findMissing_reports_absent_witness :
  collect_imports (one_root "r" [mkPkg "A" ["B"]; mkPkg "B" ["D"]]) !! "D" = None ∧
  ∀ e k, e ∈ one_root "r" [mkPkg "A" ["B"]; mkPkg "B" ["D"]] →
         k ∈ Pkgs e.2 → ImportPath k.2 ≠ "D".
Proof.
  apply (findMissing_reports_absent [mkPkg "A" ["B"]] _ {["D"]}).
  - vm_compute. reflexivity.
  - apply elem_of_singleton. reflexivity.
Defined.

(** C8.  The pseudo import path "C" is never in the set [findMissing]
    returns. *)
Theorem findMissing_never_reports_C (pkgs : list Pkg)
    (dsm : list (string * Depset)) (M : gset string) :
  findMissing pkgs dsm = Done M → "C" ∉ M.
Proof.
  intros Hrun Hq. apply (findMissing_Done _ _ _ Hrun) in Hq as [_ Hq].
  by rewrite all_imports_C in Hq.
Qed.

Lemma findMissing_never_reports_C_witness :
  "C" ∉ ({["D"]} : gset string).
Proof.
  apply (findMissing_never_reports_C [mkPkg "A" ["C"; "D"]]
           (one_root "r" [mkPkg "A" ["C"; "D"]])).
  vm_compute. reflexivity.
Defined.

(** [findMissing] always ends: it returns or it faults. *)
Lemma findMissing_total pkgs dsm : findMissing pkgs dsm ≠ OutOfFuel.
Proof.
  rewrite findMissing_unmemoized_eq. apply unmemoized_from_enough_fuel.
Qed.

(** [findMissing] faults only when a target leads to a cycle. *)
Lemma findMissing_fault_cycle pkgs dsm p :
  findMissing pkgs dsm = Panicked p →
  ∃ q, leads_to (all_imports dsm) pkgs q ∧ on_cycle (all_imports dsm) q.
Proof.
  rewrite findMissing_unmemoized_eq. apply unmemoized_from_Panicked.
Qed.

(** The set [findMissing] returns does not depend on the order in which
    the targets are listed. *)
Lemma findMissing_any_order pkgs pkgs' dsm M :
  pkgs ≡ₚ pkgs' → findMissing pkgs dsm = Done M → findMissing pkgs' dsm = Done M.
Proof.
  intros Hperm Hrun.
  assert (∀ q, leads_to (all_imports dsm) pkgs q ↔ leads_to (all_imports dsm) pkgs' q)
    as Hlead.
  { intros q. unfold leads_to. by setoid_rewrite Hperm. }
  destruct (findMissing pkgs' dsm) as [M'|p|] eqn:Hrun'.
  - f_equal. apply set_eq. intros q.
    rewrite (findMissing_Done _ _ _ Hrun q), (findMissing_Done _ _ _ Hrun' q).
    by rewrite Hlead.
  - destruct (findMissing_fault_cycle _ _ _ Hrun') as (q & Hq & Hc).
    apply Hlead in Hq. rewrite findMissing_unmemoized_eq in Hrun.
    by destruct (unmemoized_from_cycle _ _ _ _ _ Hq Hc Hrun).
  - by destruct (findMissing_total pkgs' dsm).
Qed.

(** C5 (as amended).  When a target leads, through packages of the table
    and not counting self imports, to a package on a cycle of at least two
    packages of the table, [findMissing] ends with the import-loop fault. *)
Theorem findMissing_import_loop (pkgs : list Pkg)
    (dsm : list (string * Depset)) (q : string) :
  leads_to (all_imports dsm) pkgs q → on_cycle (all_imports dsm) q →
  is_import_loop (findMissing pkgs dsm).
Proof.
  intros Hlead Hcyc. rewrite findMissing_unmemoized_eq.
  unfold findMissing_unmemoized. cbv zeta.
  destruct (findMissing_unmemoized_from _ (all_imports dsm) pkgs) as [r|p|] eqn:Hrun.
  - by destruct (unmemoized_from_cycle _ _ _ _ _ Hlead Hcyc Hrun).
  - destruct (unmemoized_from_fault _ _ _ _ Hrun) as (v & s & ->).
    by exists v, s.
  - by destruct (unmemoized_from_enough_fuel (all_imports dsm) pkgs).
Qed.

Lemma findMissing_import_loop_witness :
  is_import_loop
    (findMissing [mkPkg "A" ["B"]]
                 (one_root "r" [mkPkg "A" ["B"]; mkPkg "B" ["A"]])).
Proof.
  assert (edge (all_imports (one_root "r" [mkPkg "A" ["B"]; mkPkg "B" ["A"]]))
               "A" "B") as HAB.
  { exists (mkPkg "A" ["B"]).
    split; [vm_compute; reflexivity|]. split; [apply list_elem_of_here|discriminate]. }
  assert (edge (all_imports (one_root "r" [mkPkg "A" ["B"]; mkPkg "B" ["A"]]))
               "B" "A") as HBA.
  { exists (mkPkg "B" ["A"]).
    split; [vm_compute; reflexivity|]. split; [apply list_elem_of_here|discriminate]. }
  apply (findMissing_import_loop _ _ "A").
  - exists (mkPkg "A" ["B"]). split; [apply list_elem_of_here|apply rtc_refl].
  - exact (tc_l _ _ _ _ HAB (tc_once _ _ _ HBA)).
Defined.

(** C5 as stated fails on a self import, which line 268 skips, and on a
    cycle that no target leads to: both tables hold a cycle of imports among
    their packages, and [findMissing] returns the empty set. *)
Lemma findMissing_cycle_without_fault :
  (has_import_cycle (all_imports (one_root "r" [mkPkg "A" ["A"]])) ∧
   findMissing [mkPkg "A" ["A"]] (one_root "r" [mkPkg "A" ["A"]]) = Done ∅) ∧
  (has_import_cycle
     (all_imports (one_root "r" [mkPkg "X" []; mkPkg "A" ["B"]; mkPkg "B" ["A"]])) ∧
   findMissing [mkPkg "X" []]
     (one_root "r" [mkPkg "X" []; mkPkg "A" ["B"]; mkPkg "B" ["A"]]) = Done ∅).
Proof.
  split; (split; [|vm_compute; reflexivity]).
  - exists "A". apply tc_once. exists (mkPkg "A" ["A"]).
    split; [vm_compute; reflexivity|apply list_elem_of_here].
  - exists "A". apply (tc_l _ _ "B").
    + exists (mkPkg "A" ["B"]). split; [vm_compute; reflexivity|apply list_elem_of_here].
    + apply tc_once. exists (mkPkg "B" ["A"]).
      split; [vm_compute; reflexivity|apply list_elem_of_here].
Qed.

(** The analysis of a single target. *)
Lemma findMissing_one_target pkg dsm m :
  traverses (all_imports dsm) (ImportPath pkg) ∅ ∅ (Done m) →
  findMissing [pkg] dsm = Done m.
Proof.
  intros Ht. rewrite findMissing_unmemoized_eq.
  unfold findMissing_unmemoized. cbn [findMissing_unmemoized_from].
  rewrite (traverses_budget _ _ _ _ Ht). cbn. f_equal. set_solver.
Qed.

Lemma all_imports_one_root2 r p1 p2 :
  all_imports (one_root r [p1; p2])
  = <["C" := fake_C]> (<[ImportPath p2 := p2]> (<[ImportPath p1 := p1]> ∅)).
Proof. reflexivity. Qed.

Lemma findMissing_two_present r a b :
  findMissing [mkPkg a [b]] (one_root r [mkPkg a [b]; mkPkg b []]) = Done ∅.
Proof.
  apply findMissing_one_target. split; [done|]. exists 2.
  rewrite all_imports_one_root2. cbn [ImportPath mkPkg].
  set (G := <["C" := fake_C]> _).
  assert (∃ pb, G !! b = Some pb ∧ Imports pb = []) as (pb & Hb & Hpb).
  { unfold G. rewrite !lookup_insert. repeat case_decide; eauto; done. }
  assert (∃ pa, G !! a = Some pa ∧ (Imports pa = [] ∨ Imports pa = [b]))
    as (pa & Ha & Hpa).
  { unfold G. rewrite !lookup_insert. repeat case_decide; subst; eauto; done. }
  rewrite (traverse_step_present _ _ _ _ _ _ Ha) by set_solver.
  destruct Hpa as [->| ->]; [done|]. cbn [range_imports].
  case_decide; [done|].
  rewrite (traverse_step_present _ _ _ _ _ _ Hb) by set_solver.
  by rewrite Hpb.
Qed.

Lemma findMissing_third_absent r a b c :
  a ≠ b → a ≠ c → b ≠ c → a ≠ "C" → b ≠ "C" → c ≠ "C" →
  findMissing [mkPkg a [b]] (one_root r [mkPkg a [b]; mkPkg b [c]]) = Done {[c]}.
Proof.
  intros Hab Hac Hbc Ha Hb Hc.
  apply findMissing_one_target. split; [done|]. exists 3.
  rewrite all_imports_one_root2. cbn [ImportPath mkPkg].
  set (G := <["C" := fake_C]> _).
  assert (G !! a = Some (mkPkg a [b])) as HGa.
  { unfold G. rewrite 2!lookup_insert_ne by done. apply lookup_insert_eq. }
  assert (G !! b = Some (mkPkg b [c])) as HGb.
  { unfold G. rewrite lookup_insert_ne by done. apply lookup_insert_eq. }
  assert (G !! c = None) as HGc.
  { unfold G. by rewrite 3!lookup_insert_ne by done. }
  rewrite (traverse_step_present _ _ _ _ _ _ HGa) by set_solver.
  cbn [range_imports Imports mkPkg]. rewrite decide_False by done.
  rewrite (traverse_step_present _ _ _ _ _ _ HGb) by set_solver.
  cbn [range_imports Imports mkPkg]. rewrite decide_False by done.
  rewrite (traverse_step_absent _ _ _ _ _ HGc).
  cbn. f_equal. set_solver.
Qed.

(** C6 (as amended).  When [findMissing] returns, it returns exactly the
    paths that a target leads to and that are neither in the table
    collected from the depsets nor the pseudo path "C".  With A importing B
    and B importing nothing it returns the empty set; with A importing B
    and B importing a third path, where the three are distinct and none is
    "C", it returns the third path alone. *)
Theorem findMissing_exact :
  (∀ pkgs dsm M, findMissing pkgs dsm = Done M →
     ∀ q, q ∈ M ↔ leads_to (all_imports dsm) pkgs q ∧
                  collect_imports dsm !! q = None ∧ q ≠ "C") ∧
  (∀ r a b,
     findMissing [mkPkg a [b]] (one_root r [mkPkg a [b]; mkPkg b []]) = Done ∅) ∧
  (∀ r a b c,
     a ≠ b → a ≠ c → b ≠ c → a ≠ "C" → b ≠ "C" → c ≠ "C" →
     findMissing [mkPkg a [b]] (one_root r [mkPkg a [b]; mkPkg b [c]])
     = Done {[c]}).
Proof.
  split; [|split].
  - intros pkgs dsm M Hrun q.
    rewrite (findMissing_Done _ _ _ Hrun q), all_imports_None_iff. done.
  - apply findMissing_two_present.
  - apply findMissing_third_absent.
Qed.

Lemma findMissing_exact_witness :
  findMissing [mkPkg "A" ["B"]] (one_root "r" [mkPkg "A" ["B"]; mkPkg "B" ["D"]])
  = Done {["D"]} ∧
  ("D" ∈ ({["D"]} : gset string) ↔
   leads_to (all_imports (one_root "r" [mkPkg "A" ["B"]; mkPkg "B" ["D"]]))
            [mkPkg "A" ["B"]] "D" ∧
   collect_imports (one_root "r" [mkPkg "A" ["B"]; mkPkg "B" ["D"]]) !! "D" = None ∧
   "D" ≠ "C").
Proof.
  destruct findMissing_exact as (Hexact & _ & Habsent).
  assert (findMissing [mkPkg "A" ["B"]]
            (one_root "r" [mkPkg "A" ["B"]; mkPkg "B" ["D"]]) = Done {["D"]}) as Hrun.
  { apply Habsent; discriminate. }
  split; [exact Hrun|]. exact (Hexact _ _ _ Hrun "D").
Defined.

(** C6 as stated fails when the third path is "C" itself: no package of
    the root set has that import path, B imports it, and [findMissing]
    returns the empty set. *)
Lemma findMissing_third_is_C :
  collect_imports (one_root "r" [mkPkg "A" ["B"]; mkPkg "B" ["C"]]) !! "C" = None ∧
  findMissing [mkPkg "A" ["B"]] (one_root "r" [mkPkg "A" ["B"]; mkPkg "B" ["C"]])
  = Done ∅ ∧
  findMissing [mkPkg "A" ["B"]] (one_root "r" [mkPkg "A" ["B"]; mkPkg "B" ["C"]])
  ≠ Done {["C"]}.
Proof.
  split; [vm_compute; reflexivity|].
  assert (findMissing [mkPkg "A" ["B"]]
            (one_root "r" [mkPkg "A" ["B"]; mkPkg "B" ["C"]]) = Done ∅) as ->.
  { vm_compute. reflexivity. }
  split; [done|]. intros Heq.
  assert ("C" ∈ (∅ : gset string)) as Hin; [|set_solver].
  replace (∅ : gset string) with ({["C"]} : gset string) by congruence.
  set_solver.
Qed.

(** * The command: properties *)

(** ** The first key of the missing set *)

Lemma sort_Strings_sorted l : StronglySorted String.le (sort_Strings l).
Proof. apply StronglySorted_merge_sort; apply _. Qed.

Lemma sort_Strings_perm l : sort_Strings l ≡ₚ l.
Proof. apply merge_sort_Permutation. Qed.

(** The order in which [keys] lists the map does not matter once sorted. *)
Lemma sort_Strings_any_order (ks : list string) (M : gset string) :
  ks ≡ₚ keys M → sort_Strings ks = sort_Strings (keys M).
Proof.
  intros Hperm. apply (Sorted_unique String.le).
  - apply Sorted_merge_sort. apply _.
  - apply Sorted_merge_sort. apply _.
  - by rewrite !sort_Strings_perm.
Qed.

Lemma first_key_least (M : gset string) (pkg : string) :
  first_key M = Some pkg → pkg ∈ M ∧ ∀ x, x ∈ M → String.le pkg x.
Proof.
  unfold first_key. intros Hhd.
  pose proof (sort_Strings_sorted (keys M)) as Hsorted.
  pose proof (sort_Strings_perm (keys M)) as Hperm.
  destruct (sort_Strings (keys M)) as [|k ks]; simplify_eq/=.
  assert (∀ x, x ∈ M ↔ x ∈ pkg :: ks) as Hin.
  { intros x. rewrite Hperm. unfold keys. by rewrite elem_of_elements. }
  split; [apply Hin; by left|].
  intros x [->|Hx]%Hin%elem_of_cons; [done|].
  apply StronglySorted_cons in Hsorted as [Hall _].
  by eapply Forall_forall in Hall.
Qed.

Lemma first_key_is_Some (M : gset string) :
  size M ≠ 0 → is_Some (first_key M).
Proof.
  unfold first_key. intros Hsz.
  pose proof (sort_Strings_perm (keys M)) as Hperm.
  destruct (sort_Strings (keys M)) as [|k ks]; simpl; [|by eauto].
  apply Permutation_nil_l in Hperm. unfold keys in Hperm. symmetry in Hperm.
  apply elements_empty_inv in Hperm. apply leibniz_equiv in Hperm.
  subst M. by rewrite size_empty in Hsz.
Qed.

Example first_key_example : first_key {["zzz/pkg"; "aaa/pkg"]} = Some "aaa/pkg".
Proof. vm_compute. reflexivity. Qed.

(** ** Events *)

Lemma events_since_app {K} (w w' : world K) evs :
  trace w' = trace w ++ evs → events_since w w' = evs.
Proof. unfold events_since. intros ->. by rewrite drop_app_length. Qed.

(** ** The recursive loop *)

(** C7.  An iteration of the loop that finds a non-empty missing set calls
    [fetch], with [recurse] false, for the least import path of the set in
    the byte-wise order of strings: it reads the manifest, loads the roots,
    logs, and what it does next is decided by that call.  From the missing
    set of "zzz/pkg" and "aaa/pkg" the path picked is "aaa/pkg". *)
Theorem ForLoop_fetches_least (K : collaborators) (fuel n : nat)
    (path : string) (global : bool) (w : world K) (e1 e2 : Ext K)
    (dsm : list (string * Depset)) (is_ : Depset) (M : gset string) :
  read_fault K (ext w) = (None, e1) →
  LoadPaths K (roots K (manifest_file w) global) (vendor_tree w) e1
    = (Success dsm, e2) →
  lookup_depset dsm (Join K (vendorDir K global) path) = Some is_ →
  findMissing (pkgs (Pkgs is_)) dsm = Done M →
  M ≠ ∅ →
  (∃ pkg w1,
     pkg ∈ M ∧ (∀ x, x ∈ M → String.le pkg x) ∧
     events_since w w1
       = [ManifestRead true;
          PathsLoaded (roots K (manifest_file w) global) true;
          Logged ("fetching recursive dependency " +:+ pkg)] ∧
     ForLoop K (fetch K fuel) (S n) path global w
       = after_fetch K (ForLoop K (fetch K fuel) n path global)
                     (fetch K fuel pkg false global w1)) ∧
  first_key {["zzz/pkg"; "aaa/pkg"]} = Some "aaa/pkg" ∧
  fetched_paths
    (trace (fetch (demo NothingFails two_graph) 4 "app" true false
              (demo_world NothingFails two_graph "" "" {| Dependencies := [] |})).2)
  = ["app"; "aaa/pkg"; "zzz/pkg"].
Proof.
  intros Hread Hload Hdep Hmiss Hne.
  split; [|split; [apply first_key_example|vm_compute; reflexivity]].
  assert (size M ≠ 0) as Hsz.
  { intros Hs. apply size_empty_iff in Hs. by apply leibniz_equiv in Hs. }
  destruct (first_key_is_Some M Hsz) as [pkg Hkey].
  destruct (first_key_least M pkg Hkey) as [Hin Hleast].
  exists pkg.
  exists (record (Logged ("fetching recursive dependency " +:+ pkg))
           (record (PathsLoaded (roots K (manifest_file w) global) true)
              (with_ext e2 (record (ManifestRead true) (with_ext e1 w))))).
  split; [done|]. split; [done|]. split.
  - apply events_since_app. simpl. by rewrite <-!(assoc_L (++)).
  - cbn [ForLoop]. unfold bind at 1. unfold must at 1. unfold bind at 1.
    unfold ReadManifest. rewrite Hread. cbn -[findMissing roots first_key].
    unfold bind at 1. unfold must at 1. unfold bind at 1.
    unfold call_LoadPaths. cbn -[findMissing roots first_key].
    rewrite Hload. cbn -[findMissing roots first_key].
    rewrite Hdep, Hmiss. rewrite decide_False by done. rewrite Hkey.
    reflexivity.
Qed.

Lemma ForLoop_fetches_least_witness :
  (∃ pkg w1,
     pkg ∈ ({["zzz/pkg"; "aaa/pkg"]} : gset string) ∧
     (∀ x, x ∈ ({["zzz/pkg"; "aaa/pkg"]} : gset string) → String.le pkg x) ∧
     events_since (app_vendored NothingFails two_graph) w1
       = [ManifestRead true;
          PathsLoaded [("/go/src", ""); ("vendor/app", "app")] true;
          Logged ("fetching recursive dependency " +:+ pkg)] ∧
     ForLoop (demo NothingFails two_graph) (fetch (demo NothingFails two_graph) 1)
             2 "app" false (app_vendored NothingFails two_graph)
       = after_fetch (demo NothingFails two_graph)
           (ForLoop (demo NothingFails two_graph)
                    (fetch (demo NothingFails two_graph) 1) 1 "app" false)
           (fetch (demo NothingFails two_graph) 1 pkg false false w1)) ∧
  first_key {["zzz/pkg"; "aaa/pkg"]} = Some "aaa/pkg" ∧
  fetched_paths
    (trace (fetch (demo NothingFails two_graph) 4 "app" true false
              (demo_world NothingFails two_graph "" "" {| Dependencies := [] |})).2)
  = ["app"; "aaa/pkg"; "zzz/pkg"].
Proof.
  eapply (ForLoop_fetches_least (demo NothingFails two_graph) 1 1 "app" false
            (app_vendored NothingFails two_graph)).
  - reflexivity.
  - reflexivity.
  - reflexivity.
  - vm_compute. reflexivity.
  - intros HM. apply (f_equal size) in HM. vm_compute in HM. discriminate HM.
Defined.

(** ** One vendoring step *)

(** Runs [fetch_step] symbolically: every call to a collaborator is split
    into its possible results. *)
Ltac run_step :=
  unfold fetch_step, must, must_nil, log_Printf, bind, ReadManifest,
    WriteManifest, call_DeduceRemoteRepo, call_Checkout, call_Revision,
    call_Branch, call_Destroy, call_Copypath, stripscheme, emit, get, ret,
    raise, panic, AddDependency in *;
  repeat (case_match; simplify_eq/=).

Ltac list_events H :=
  unfold events_since in H; simpl in H;
  rewrite <-?(assoc_L (++)), ?drop_app_length in H; simpl in H;
  repeat (apply elem_of_cons in H as [H|H]; simplify_eq/=);
  try (by apply elem_of_nil in H).

(** C3.  When the directory copy of a step fails, the step returns that
    error, it has not written the manifest, the manifest file is what it was
    before the step, and it holds no dependency for the import path of the
    step (the path without its scheme). *)
Theorem copy_failure_keeps_manifest (K : collaborators) (path : string)
    (global : bool) (w : world K) (dst src : string) :
  Copied dst src false ∈ events_since w (fetch_step K path global w).2 →
  manifest_file (fetch_step K path global w).2 = manifest_file w ∧
  (∀ m ok, ManifestWritten m ok ∉ events_since w (fetch_step K path global w).2) ∧
  (∃ err, (fetch_step K path global w).1 = Raise (External err)) ∧
  ∃ host upath,
    url_Parse K path = Success (host, upath) ∧
    dst = Join K (vendorDir K global) (host +:+ upath) ∧
    HasImportpath (manifest_file (fetch_step K path global w).2) (host +:+ upath)
    = false.
Proof.
  intros Hcopy.
  destruct (fetch_step K path global w) as [r w'] eqn:Hstep. simpl in *.
  run_step; list_events Hcopy.
  split; [done|]. split.
  - intros m ok Hw. list_events Hw.
  - split; [by eauto|]. eauto 10.
Qed.

Lemma copy_failure_keeps_manifest_witness :
  manifest_file
    (fetch_step (demo CopyFails app_graph) "app" false
       (demo_world CopyFails app_graph "" "" {| Dependencies := [] |})).2
  = {| Dependencies := [] |} ∧
  (∀ m ok,
     ManifestWritten m ok
     ∉ events_since (demo_world CopyFails app_graph "" "" {| Dependencies := [] |})
         (fetch_step (demo CopyFails app_graph) "app" false
            (demo_world CopyFails app_graph "" "" {| Dependencies := [] |})).2) ∧
  (∃ err,
     (fetch_step (demo CopyFails app_graph) "app" false
        (demo_world CopyFails app_graph "" "" {| Dependencies := [] |})).1
     = Raise (External err)) ∧
  ∃ host upath,
    url_Parse (demo CopyFails app_graph) "app" = Success (host, upath) ∧
    "vendor/app" = Join (demo CopyFails app_graph)
                     (vendorDir (demo CopyFails app_graph) false) (host +:+ upath) ∧
    HasImportpath
      (manifest_file
         (fetch_step (demo CopyFails app_graph) "app" false
            (demo_world CopyFails app_graph "" "" {| Dependencies := [] |})).2)
      (host +:+ upath)
    = false.
Proof.
  apply (copy_failure_keeps_manifest (demo CopyFails app_graph) "app" false
           (demo_world CopyFails app_graph "" "" {| Dependencies := [] |})
           "vendor/app" "/tmp/https://app/").
  vm_compute. do 5 apply list_elem_of_further. apply list_elem_of_here.
Defined.

(** ** A path that is already vendored *)

(** C4 (as amended).  When the manifest loads and holds the import path
    without its scheme, [fetch] returns [AlreadyErr] provided the repository
    is deduced; the test of the manifest comes after the deduction of the
    repository (lines 86 and 95), so when the deduction fails its error is
    returned instead.  Either way the manifest file and the vendor tree are
    left as they were. *)
Theorem fetch_already_vendored (K : collaborators) (fuel : nat) (path : string)
    (recurse global : bool) (w : world K) (e1 : Ext K) (host upath : string) :
  read_fault K (ext w) = (None, e1) →
  url_Parse K path = Success (host, upath) →
  HasImportpath (manifest_file w) (host +:+ upath) = true →
  (∀ found e2,
     DeduceRemoteRepo K path (insecure w) e1 = (Success found, e2) →
     (fetch K (S fuel) path recurse global w).1 = Raise AlreadyErr ∧
     events_since w (fetch K (S fuel) path recurse global w).2
     = [FetchCalled path recurse global; ManifestRead true;
        RepoDeduced path (insecure w) true;
        Logged ((host +:+ upath) +:+ " is already vendored")]) ∧
  (∀ err e2,
     DeduceRemoteRepo K path (insecure w) e1 = (Failure err, e2) →
     (fetch K (S fuel) path recurse global w).1 = Raise (External err)) ∧
  manifest_file (fetch K (S fuel) path recurse global w).2 = manifest_file w ∧
  vendor_tree (fetch K (S fuel) path recurse global w).2 = vendor_tree w.
Proof.
  intros Hread Hparse Hhas.
  assert (fetch K (S fuel) path recurse global w
          = match DeduceRemoteRepo K path (insecure w) e1 with
            | (Success found, e2) =>
                (Raise AlreadyErr,
                 record (Logged ((host +:+ upath) +:+ " is already vendored"))
                   (record (RepoDeduced path (insecure w) true)
                      (with_ext e2
                         (record (ManifestRead true)
                            (with_ext e1
                               (record (FetchCalled path recurse global) w))))))
            | (Failure err, e2) =>
                (Raise (External err),
                 record (RepoDeduced path (insecure w) false)
                   (with_ext e2
                      (record (ManifestRead true)
                         (with_ext e1
                            (record (FetchCalled path recurse global) w)))))
            end) as Hrun.
  { cbn [fetch].
    unfold fetch_step, must, log_Printf, bind, emit, ReadManifest, get,
      call_DeduceRemoteRepo, stripscheme, ret, raise.
    cbn [ext record with_ext insecure]. rewrite Hread.
    cbn [ext record with_ext insecure is_nil manifest_file].
    destruct (DeduceRemoteRepo K path (insecure w) e1) as [[found|err] e2];
      [|done].
    rewrite Hparse. cbn [ext record with_ext insecure is_nil manifest_file is_ok].
    by rewrite Hhas. }
  rewrite Hrun.
  destruct (DeduceRemoteRepo K path (insecure w) e1) as [[found|err] e2] eqn:Hded.
  - split; [|split; [by intros ?? [=]|done]].
    intros ?? _. split; [done|].
    apply events_since_app. simpl. by rewrite <-!(assoc_L (++)).
  - split; [by intros ?? [=]|]. split; [|done].
    by intros ?? [= -> ->].
Qed.

Lemma fetch_already_vendored_witness :
  (fetch (demo NothingFails app_graph) 2 "app" true false
     (app_vendored NothingFails app_graph)).1 = Raise AlreadyErr ∧
  manifest_file
    (fetch (demo NothingFails app_graph) 2 "app" true false
       (app_vendored NothingFails app_graph)).2
  = {| Dependencies := [app_dependency] |} ∧
  vendor_tree
    (fetch (demo NothingFails app_graph) 2 "app" true false
       (app_vendored NothingFails app_graph)).2
  = ["vendor/app"].
Proof.
  destruct (fetch_already_vendored (demo NothingFails app_graph) 1 "app" true
              false (app_vendored NothingFails app_graph) [] "app" ""
              eq_refl eq_refl eq_refl) as (Hok & _ & Hm & Ht).
  split; [exact (proj1 (Hok _ _ eq_refl))|]. split; [exact Hm|exact Ht].
Defined.

(** C4 as stated fails when the repository cannot be deduced: the manifest
    loads and holds the path, and [fetch] returns the error of the
    deduction, not [AlreadyErr]. *)
Lemma fetch_already_vendored_unresolved :
  read_fault (demo DeduceFails app_graph) (ext (app_vendored DeduceFails app_graph))
  = (None, []) ∧
  url_Parse (demo DeduceFails app_graph) "app" = Success ("app", "") ∧
  HasImportpath (manifest_file (app_vendored DeduceFails app_graph)) "app" = true ∧
  (fetch (demo DeduceFails app_graph) 2 "app" true false
     (app_vendored DeduceFails app_graph)).1
  = Raise (External "unable to determine remote") ∧
  (fetch (demo DeduceFails app_graph) 2 "app" true false
     (app_vendored DeduceFails app_graph)).1
  ≠ Raise AlreadyErr.
Proof.
  split; [reflexivity|]. split; [reflexivity|]. split; [vm_compute; reflexivity|].
  assert ((fetch (demo DeduceFails app_graph) 2 "app" true false
             (app_vendored DeduceFails app_graph)).1
          = Raise (External "unable to determine remote")) as ->.
  { vm_compute. reflexivity. }
  split; [reflexivity|discriminate].
Qed.

(** ** The selectors of the recursive calls *)

(** C1 at a failing input: [gvt fetch -branch dev -revision abc123 app],
    where "app" imports "dep", which is not vendored.  The command succeeds;
    [Checkout] is called for "app" with the selectors of the command, and
    for "dep" with the revision and the tag emptied and the branch still
    "dev". *)
Theorem recursive_fetch_keeps_branch :
  (fetch (demo NothingFails app_graph) 3 "app" true false
     (demo_world NothingFails app_graph "dev" "abc123" {| Dependencies := [] |})).1
  = Return tt ∧
  checkout_selectors
    (trace (fetch (demo NothingFails app_graph) 3 "app" true false
              (demo_world NothingFails app_graph "dev" "abc123"
                 {| Dependencies := [] |})).2)
  = [("dev", "", "abc123"); ("dev", "", "")].
Proof. split; vm_compute; reflexivity. Qed.

(** ** The working copy of a step that fails *)

(** C2 at failing inputs: a step in which reading the revision, reading the
    branch, the copy, or the manifest write fails.  Each time the step
    returns the error, it has obtained a working copy, it has destroyed
    none, and the working copy still exists afterwards. *)
Theorem failed_step_keeps_working_copy :
  Forall (λ broken,
    let w := demo_world broken app_graph "" "" {| Dependencies := [] |} in
    let run := fetch_step (demo broken app_graph) "app" false w in
    (∃ err, run.1 = Raise (External err)) ∧
    checked_out (events_since w run.2) = ["https://app"] ∧
    destroyed (events_since w run.2) = [] ∧
    ext run.2 = ["/tmp/https://app"])
  [RevisionFails; BranchFails; CopyFails; WriteFails].
Proof.
  apply Forall_forall. intros broken Hb.
  repeat (apply elem_of_cons in Hb as [->|Hb]);
    try (by apply elem_of_nil in Hb);
    (split; [eexists; vm_compute; reflexivity|]);
    repeat split; vm_compute; reflexivity.
Qed.

(** ** What the code does with the selectors and with the working copy *)

Lemma checkout_selectors_app {K} (evs1 evs2 : list (event K)) :
  checkout_selectors (evs1 ++ evs2)
  = checkout_selectors evs1 ++ checkout_selectors evs2.
Proof. apply omap_app. Qed.

Lemma same_selectors_refl {K} (w : world K) : same_selectors w w.
Proof.
  split; [done|]. split; [done|]. split; [done|].
  exists []. split; [by rewrite app_nil_r|constructor].
Qed.

Lemma same_selectors_trans {K} (w1 w2 w3 : world K) :
  same_selectors w1 w2 → same_selectors w2 w3 → same_selectors w1 w3.
Proof.
  intros (Hb1 & Ht1 & Hr1 & evs1 & He1 & Hs1) (Hb2 & Ht2 & Hr2 & evs2 & He2 & Hs2).
  split; [congruence|]. split; [congruence|]. split; [congruence|].
  exists (evs1 ++ evs2). split.
  - by rewrite He2, He1, (assoc_L (++)).
  - rewrite checkout_selectors_app. apply Forall_app. split; [done|].
    by rewrite <-Hb1, <-Ht1, <-Hr1.
Qed.

Ltac explicit_selectors :=
  split; [done|]; split; [done|]; split; [done|];
  eexists; split;
    [simpl; rewrite <-?(assoc_L (++)); reflexivity
    |simpl; repeat constructor].

(** A step passes to [Checkout] the package-level selectors as they are
    when it starts, and leaves them as they are. *)
Lemma fetch_step_selectors (K : collaborators) path global (w : world K) :
  same_selectors w (fetch_step K path global w).2.
Proof.
  destruct (fetch_step K path global w) as [r w'] eqn:Hstep. simpl.
  run_step; explicit_selectors.
Qed.

(** A step destroys the working copy only after it has written the
    manifest. *)
Lemma fetch_step_destroys_last (K : collaborators) path global (w : world K)
    wc ok :
  Destroyed wc ok ∈ events_since w (fetch_step K path global w).2 →
  ∃ m, ManifestWritten m true ∈ events_since w (fetch_step K path global w).2.
Proof.
  intros Hd.
  destruct (fetch_step K path global w) as [r w'] eqn:Hstep. simpl in *.
  run_step; list_events Hd;
    eexists; unfold events_since; simpl;
    rewrite <-?(assoc_L (++)), ?drop_app_length; simpl;
    do 6 apply list_elem_of_further; apply list_elem_of_here.
Qed.

Lemma record_selectors {K} (ev : event K) (w : world K) :
  checkout_selectors [ev] = [] → same_selectors w (record ev w).
Proof.
  intros Hev. split; [done|]. split; [done|]. split; [done|].
  exists [ev]. split; [done|]. rewrite Hev. constructor.
Qed.

(** A call of [fetch] with [recurse] false is one step. *)
Lemma fetch_norec_selectors (K : collaborators) fuel path global (w : world K) :
  same_selectors w (fetch K fuel path false global w).2.
Proof.
  destruct fuel as [|fuel]; [apply same_selectors_refl|].
  cbn [fetch]. unfold bind at 1. unfold emit at 1. unfold bind at 1.
  eapply same_selectors_trans;
    [apply (record_selectors (FetchCalled path false global)); done|].
  pose proof (fetch_step_selectors K path global
                (record (FetchCalled path false global) w)) as Hstep.
  destruct (fetch_step K path global _) as [[p|e|p|] w']; exact Hstep.
Qed.

(** The loop leaves the package-level selectors as they are, and every
    call of [fetch] it makes passes them to [Checkout]. *)
Lemma ForLoop_selectors (K : collaborators) fuel n path global (w : world K) :
  same_selectors w (ForLoop K (fetch K fuel) n path global w).2.
Proof.
  revert w. induction n as [|n IH]; intros w; [apply same_selectors_refl|].
  cbn [ForLoop].
  unfold must, log_Printf, bind, emit, ReadManifest, call_LoadPaths, ret, raise,
    panic, unfinished.
  destruct (read_fault K (ext w)) as [[err|] e1]; [explicit_selectors|].
  cbn [ext record with_ext vendor_tree manifest_file].
  destruct (LoadPaths K _ (vendor_tree w) e1) as [[dsm|err] e2];
    [|explicit_selectors].
  destruct (lookup_depset dsm _) as [is_|]; [|explicit_selectors].
  destruct (findMissing _ dsm) as [M|f|]; [|explicit_selectors..].
  case_decide; [explicit_selectors|].
  destruct (first_key M) as [pkg|]; [|explicit_selectors].
  set (w1 := record (Logged _) _).
  assert (same_selectors w w1) as H1 by explicit_selectors.
  pose proof (fetch_norec_selectors K fuel pkg global w1) as H2.
  destruct (fetch K fuel pkg false global w1) as [[[]|e|p|] w2];
    cbn [after_fetch snd] in *.
  - eapply same_selectors_trans; [|apply IH].
    by eapply same_selectors_trans.
  - destruct e; by eapply same_selectors_trans.
  - by eapply same_selectors_trans.
  - by eapply same_selectors_trans.
Qed.

(** What the code does in place of C1: once the first step of a recursive
    [fetch] has succeeded, every later [Checkout] is passed the branch of
    the top-level request, an empty tag and an empty revision. *)
Lemma recursive_checkouts (K : collaborators) fuel path global (w : world K) p w1 :
  fetch_step K path global (record (FetchCalled path true global) w)
    = (Return p, w1) →
  ∃ evs,
    trace (fetch K (S fuel) path true global w).2 = trace w1 ++ evs ∧
    Forall (λ s, s = (branch w, "", "")) (checkout_selectors evs).
Proof.
  intros Hstep.
  pose proof (fetch_step_selectors K path global
                (record (FetchCalled path true global) w)) as Hsel.
  rewrite Hstep in Hsel. destruct Hsel as (Hb & _ & _ & _). simpl in Hb.
  cbn [fetch]. unfold bind at 1. unfold emit at 1. unfold bind at 1.
  rewrite Hstep. cbn [negb]. unfold bind, set_tag, set_revision.
  destruct (ForLoop_selectors K fuel fuel p global
              (with_revision "" (with_tag "" w1)))
    as (_ & _ & _ & evs & Htr & Hall).
  exists evs. split; [exact Htr|]. simpl in Hall. by rewrite Hb in Hall.
Qed.

(** * Further properties of the graph analysis *)

(** X1.  [findMissing] always ends, and in one of two ways: it returns a
    set, or it panics with the import loop of line 238.  The panic of line
    244 ("impossible pop") never happens, and the depth of the recursion is
    bounded by the size of the table. *)
Theorem findMissing_ends (pkgs : list Pkg) (dsm : list (string * Depset)) :
  (∃ M, findMissing pkgs dsm = Done M) ∨ is_import_loop (findMissing pkgs dsm).
Proof.
  rewrite findMissing_unmemoized_eq. unfold findMissing_unmemoized. cbv zeta.
  destruct (findMissing_unmemoized_from _ (all_imports dsm) pkgs) as [r|p|] eqn:Hrun.
  - left. by exists r.
  - right. destruct (unmemoized_from_fault _ _ _ _ Hrun) as (v & s & ->).
    by exists v, s.
  - by destruct (unmemoized_from_enough_fuel (all_imports dsm) pkgs).
Qed.

(** X2.  [findMissing] panics exactly when some target leads, through
    packages of the table and not counting self imports, to a package that
    is on a cycle of at least two packages; otherwise it returns. *)
Theorem findMissing_faults_iff (pkgs : list Pkg) (dsm : list (string * Depset)) :
  is_import_loop (findMissing pkgs dsm) ↔
  ∃ q, leads_to (all_imports dsm) pkgs q ∧ on_cycle (all_imports dsm) q.
Proof.
  split.
  - intros (v & s & Hrun). by eapply findMissing_fault_cycle.
  - intros (q & Hlead & Hcyc). rewrite findMissing_unmemoized_eq.
    unfold findMissing_unmemoized. cbv zeta.
    destruct (findMissing_unmemoized_from _ (all_imports dsm) pkgs)
      as [r|p|] eqn:Hrun.
    + by destruct (unmemoized_from_cycle _ _ _ _ _ Hlead Hcyc Hrun).
    + destruct (unmemoized_from_fault _ _ _ _ Hrun) as (v & s & ->).
      by exists v, s.
    + by destruct (unmemoized_from_enough_fuel (all_imports dsm) pkgs).
Qed.

Lemma unmemoized_from_loop_report G fuel pkgs v s :
  findMissing_unmemoized_from fuel G pkgs = Panicked (ImportLoop v s) →
  v ∈ s ∧ leads_to G pkgs v ∧ ∀ t, t ∈ s → tc (edge G) t v.
Proof.
  induction pkgs as [|pkg pkgs IH]; intros Hrun; simpl in Hrun; [done|].
  destruct (traverse fuel G (ImportPath pkg) ∅ ∅) as [mt| |] eqn:Ht;
    simpl in Hrun; try done.
  - destruct (findMissing_unmemoized_from fuel G pkgs) as [r'| |];
      simpl in Hrun; try done.
    destruct IH as (Hv & (pkg' & Hin & Hr) & Hs); [congruence|].
    split; [done|]. split; [|done]. exists pkg'. split; [by right|done].
  - injection Hrun as ->.
    destruct (traverse_Panicked _ _ _ _ _ _ _ Ht) as (Hr & Hv & Hs).
    split; [done|]. split.
    + exists pkg. split; [by left|done].
    + intros t Ht'. destruct (Hs t Ht') as [?|?]; [set_solver|done].
Qed.

(** X3.  What the import-loop panic reports: the import path printed is on
    the stack printed, a target leads to it, and every package of that
    stack leads to it by at least one import, so the path is on a cycle. *)
Theorem findMissing_loop_report (pkgs : list Pkg) (dsm : list (string * Depset))
    (v : string) (s : gset string) :
  findMissing pkgs dsm = Panicked (ImportLoop v s) →
  v ∈ s ∧
  leads_to (all_imports dsm) pkgs v ∧
  (∀ t, t ∈ s → tc (edge (all_imports dsm)) t v) ∧
  on_cycle (all_imports dsm) v.
Proof.
  rewrite findMissing_unmemoized_eq. intros Hrun.
  destruct (unmemoized_from_loop_report _ _ _ _ _ Hrun) as (Hv & Hlead & Hs).
  split; [done|]. split; [done|]. split; [done|]. by apply Hs.
Qed.

Lemma findMissing_loop_report_witness :
  "A" ∈ ({["A"; "B"]} : gset string) ∧
  leads_to (all_imports (one_root "r" [mkPkg "A" ["B"]; mkPkg "B" ["A"]]))
           [mkPkg "A" ["B"]] "A" ∧
  (∀ t, t ∈ ({["A"; "B"]} : gset string) →
        tc (edge (all_imports (one_root "r" [mkPkg "A" ["B"]; mkPkg "B" ["A"]])))
           t "A") ∧
  on_cycle (all_imports (one_root "r" [mkPkg "A" ["B"]; mkPkg "B" ["A"]])) "A".
Proof.
  apply (findMissing_loop_report [mkPkg "A" ["B"]]
           (one_root "r" [mkPkg "A" ["B"]; mkPkg "B" ["A"]])).
  vm_compute. reflexivity.
Defined.

(** X4.  The set [findMissing] returns does not depend on the order in
    which the targets are listed (line 179 lists them by ranging over a
    map). *)
Theorem findMissing_target_order (pkgs pkgs' : list Pkg)
    (dsm : list (string * Depset)) (M : gset string) :
  pkgs ≡ₚ pkgs' → findMissing pkgs dsm = Done M → findMissing pkgs' dsm = Done M.
Proof. apply findMissing_any_order. Qed.

Lemma findMissing_target_order_witness :
  findMissing [mkPkg "B" ["E"]; mkPkg "A" ["D"]]
    (one_root "r" [mkPkg "A" ["D"]; mkPkg "B" ["E"]])
  = Done {["D"; "E"]}.
Proof.
  apply (findMissing_target_order [mkPkg "A" ["D"]; mkPkg "B" ["E"]]).
  - apply Permutation_swap.
  - vm_compute. reflexivity.
Defined.

(** X5.  Analysing two lists of targets together gives the union of what
    analysing each gives: when the analysis of the concatenation returns,
    so do both parts, and its set is the union of theirs. *)
Theorem findMissing_app (pkgs1 pkgs2 : list Pkg) (dsm : list (string * Depset))
    (M : gset string) :
  findMissing (pkgs1 ++ pkgs2) dsm = Done M →
  ∃ M1 M2, findMissing pkgs1 dsm = Done M1 ∧ findMissing pkgs2 dsm = Done M2 ∧
           M = M1 ∪ M2.
Proof.
  intros Hrun.
  assert (∀ ps, ps ⊆ pkgs1 ++ pkgs2 → ∃ M', findMissing ps dsm = Done M') as Hpart.
  { intros ps Hsub. destruct (findMissing ps dsm) as [M'|p|] eqn:Hps.
    - by exists M'.
    - destruct (findMissing_fault_cycle _ _ _ Hps) as (q & (pkg & Hin & Hr) & Hc).
      rewrite findMissing_unmemoized_eq in Hrun.
      assert (leads_to (all_imports dsm) (pkgs1 ++ pkgs2) q) as Hlead.
      { exists pkg. split; [by apply Hsub|done]. }
      by destruct (unmemoized_from_cycle _ _ _ _ _ Hlead Hc Hrun).
    - by destruct (findMissing_total ps dsm). }
  destruct (Hpart pkgs1) as [M1 H1]; [set_solver|].
  destruct (Hpart pkgs2) as [M2 H2]; [set_solver|].
  exists M1, M2. split; [done|]. split; [done|].
  apply set_eq. intros q.
  rewrite elem_of_union, (findMissing_Done _ _ _ Hrun q),
    (findMissing_Done _ _ _ H1 q), (findMissing_Done _ _ _ H2 q).
  unfold leads_to. setoid_rewrite elem_of_app. naive_solver.
Qed.

Lemma findMissing_app_witness :
  ∃ M1 M2,
    findMissing [mkPkg "A" ["D"]] (one_root "r" [mkPkg "A" ["D"]; mkPkg "B" ["E"]])
    = Done M1 ∧
    findMissing [mkPkg "B" ["E"]] (one_root "r" [mkPkg "A" ["D"]; mkPkg "B" ["E"]])
    = Done M2 ∧
    ({["D"; "E"]} : gset string) = M1 ∪ M2.
Proof.
  apply (findMissing_app [mkPkg "A" ["D"]] [mkPkg "B" ["E"]]).
  vm_compute. reflexivity.
Defined.

(** X6.  What is certainly reported: a target that is not in the table is
    in the returned set itself, and so is every import of a target of the
    table that is not in the table. *)
Theorem findMissing_reports_near (pkgs : list Pkg) (dsm : list (string * Depset))
    (M : gset string) (pkg : Pkg) :
  findMissing pkgs dsm = Done M → pkg ∈ pkgs →
  (all_imports dsm !! ImportPath pkg = None → ImportPath pkg ∈ M) ∧
  (∀ p i, all_imports dsm !! ImportPath pkg = Some p → i ∈ Imports p →
          all_imports dsm !! i = None → i ∈ M).
Proof.
  intros Hrun Hin. split.
  - intros Habs. apply (findMissing_Done _ _ _ Hrun). split; [|done].
    exists pkg. split; [done|apply rtc_refl].
  - intros p i Hp Hi Habs. apply (findMissing_Done _ _ _ Hrun). split; [|done].
    exists pkg. split; [done|]. apply rtc_once. exists p.
    split; [done|]. split; [done|]. intros ->. congruence.
Qed.

Lemma findMissing_reports_near_witness :
  (all_imports (one_root "r" [mkPkg "A" ["B"; "D"]; mkPkg "B" []]) !! "A" = None →
   "A" ∈ ({["D"]} : gset string)) ∧
  (∀ p i,
     all_imports (one_root "r" [mkPkg "A" ["B"; "D"]; mkPkg "B" []]) !! "A" = Some p →
     i ∈ Imports p →
     all_imports (one_root "r" [mkPkg "A" ["B"; "D"]; mkPkg "B" []]) !! i = None →
     i ∈ ({["D"]} : gset string)).
Proof.
  apply (findMissing_reports_near [mkPkg "A" ["B"; "D"]]
           (one_root "r" [mkPkg "A" ["B"; "D"]; mkPkg "B" []]) {["D"]}
           (mkPkg "A" ["B"; "D"])).
  - vm_compute. reflexivity.
  - apply list_elem_of_here.
Defined.

(** X7.  A package whose import path is "C" is shadowed by the fake cgo
    package of lines 229-234: analysing it returns the empty set whatever
    it imports and whatever the depsets hold. *)
Theorem findMissing_C_shadowed (p : Pkg) (dsm : list (string * Depset)) :
  ImportPath p = "C" → findMissing [p] dsm = Done ∅.
Proof.
  intros Hp. apply findMissing_one_target. rewrite Hp.
  split; [done|]. exists 1.
  rewrite (traverse_step_present _ _ _ _ _ _ (all_imports_C dsm)) by set_solver.
  reflexivity.
Qed.

Lemma findMissing_C_shadowed_witness :
  findMissing [mkPkg "C" ["gone"]] (one_root "r" [mkPkg "C" ["gone"]]) = Done ∅.
Proof. apply findMissing_C_shadowed. reflexivity. Defined.

(** ** The table of lines 221-226 *)

Lemma collect_imports_flat dsm :
  collect_imports dsm
  = foldl (λ t k, <[ImportPath k.2 := k.2]> t) ∅ (all_pkgs dsm).
Proof.
  unfold collect_imports, all_pkgs. generalize (∅ : gmap string Pkg).
  induction dsm as [|e dsm IH]; intros t; simpl; [done|].
  by rewrite foldl_app, IH.
Qed.

Lemma foldl_insert_lookup (l : list (string * Pkg)) (t : gmap string Pkg) q :
  foldl (λ t k, <[ImportPath k.2 := k.2]> t) t l !! q
  = match last (filter (λ k, ImportPath k.2 = q) l) with
    | Some k => Some k.2
    | None => t !! q
    end.
Proof.
  induction l as [|k l IH] using rev_ind; [done|].
  rewrite foldl_app, filter_app. simpl.
  destruct (decide (ImportPath k.2 = q)) as [<-|Hne].
  - rewrite lookup_insert_eq, filter_cons_True by done.
    by rewrite filter_nil, last_snoc.
  - rewrite lookup_insert_ne, filter_cons_False by done.
    by rewrite filter_nil, app_nil_r.
Qed.

(** X8.  The table built at lines 221-234 maps an import path to the last
    package with that import path among the packages of all depsets, in
    the order they are ranged over; "C" is mapped to the fake package
    whatever the depsets hold.  So every entry other than "C" is a package
    of a depset, stored under its own import path. *)
Theorem all_imports_lookup (dsm : list (string * Depset)) (q : string) :
  collect_imports dsm !! q
  = snd <$> last (filter (λ k, ImportPath k.2 = q) (all_pkgs dsm)) ∧
  all_imports dsm !! q
  = (if decide (q = "C") then Some fake_C else collect_imports dsm !! q) ∧
  (∀ p, q ≠ "C" → all_imports dsm !! q = Some p →
        ImportPath p = q ∧ ∃ k, k ∈ all_pkgs dsm ∧ k.2 = p).
Proof.
  assert (collect_imports dsm !! q
          = snd <$> last (filter (λ k, ImportPath k.2 = q) (all_pkgs dsm))) as Hc.
  { rewrite collect_imports_flat, foldl_insert_lookup.
    destruct (last _); [done|apply lookup_empty]. }
  split; [done|]. split.
  - unfold all_imports. case_decide as Hq.
    + subst q. apply lookup_insert_eq.
    + by rewrite lookup_insert_ne.
  - intros p Hq. unfold all_imports. rewrite lookup_insert_ne by done.
    rewrite Hc. intros Hp.
    destruct (last _) as [k|] eqn:Hlast; simplify_eq/=.
    apply last_Some_elem_of, list_elem_of_filter in Hlast as [Hk Hin].
    split; [done|]. by exists k.
Qed.

Lemma all_imports_lookup_witness :
  collect_imports (one_root "r" [mkPkg "B" ["x"]; mkPkg "B" []]) !! "B"
  = snd <$> last (filter (λ k, ImportPath k.2 = "B")
                    (all_pkgs (one_root "r" [mkPkg "B" ["x"]; mkPkg "B" []]))) ∧
  all_imports (one_root "r" [mkPkg "B" ["x"]; mkPkg "B" []]) !! "B"
  = (if decide ("B" = "C") then Some fake_C
     else collect_imports (one_root "r" [mkPkg "B" ["x"]; mkPkg "B" []]) !! "B") ∧
  (∀ p, "B" ≠ "C" →
        all_imports (one_root "r" [mkPkg "B" ["x"]; mkPkg "B" []]) !! "B" = Some p →
        ImportPath p = "B" ∧
        ∃ k, k ∈ all_pkgs (one_root "r" [mkPkg "B" ["x"]; mkPkg "B" []]) ∧ k.2 = p).
Proof.
  apply (all_imports_lookup (one_root "r" [mkPkg "B" ["x"]; mkPkg "B" []]) "B").
Defined.

Lemma NoDup_fmap_same {A B} (f : A → B) (l : list A) x y :
  NoDup (f <$> l) → x ∈ l → y ∈ l → f x = f y → x = y.
Proof.
  induction l as [|a l IH]; intros Hnd Hx Hy Hf; [by apply elem_of_nil in Hx|].
  rewrite fmap_cons in Hnd. apply NoDup_cons in Hnd as [Ha Hnd].
  apply elem_of_cons in Hx as [->|Hx]; apply elem_of_cons in Hy as [->|Hy].
  - done.
  - destruct Ha. rewrite Hf. by apply list_elem_of_fmap_2.
  - destruct Ha. rewrite <-Hf. by apply list_elem_of_fmap_2.
  - by apply IH.
Qed.

(** X9.  When no two packages of the depsets have the same import path,
    every package of a depset is found in the table under its import
    path, unless that path is "C". *)
Theorem all_imports_finds (dsm : list (string * Depset)) (k : string * Pkg) :
  NoDup ((λ k, ImportPath k.2) <$> all_pkgs dsm) →
  k ∈ all_pkgs dsm → ImportPath k.2 ≠ "C" →
  all_imports dsm !! ImportPath k.2 = Some k.2.
Proof.
  intros Hnodup Hk HC. unfold all_imports. rewrite lookup_insert_ne by done.
  rewrite collect_imports_flat, foldl_insert_lookup.
  destruct (last _) as [k'|] eqn:Hlast.
  - apply last_Some_elem_of, list_elem_of_filter in Hlast as [Hk' Hin].
    f_equal. f_equal.
    by apply (NoDup_fmap_same (λ k, ImportPath k.2) (all_pkgs dsm)).
  - apply last_None in Hlast.
    assert (k ∈ filter (λ k', ImportPath k'.2 = ImportPath k.2) (all_pkgs dsm)) as Hf.
    { by apply list_elem_of_filter. }
    rewrite Hlast in Hf. by apply elem_of_nil in Hf.
Qed.

Lemma all_imports_finds_witness :
  all_imports (one_root "r" [mkPkg "A" ["B"]; mkPkg "B" []]) !! "B"
  = Some (mkPkg "B" []).
Proof.
  apply (all_imports_finds (one_root "r" [mkPkg "A" ["B"]; mkPkg "B" []])
           ("B", mkPkg "B" [])).
  - apply (bool_decide_unpack _). vm_compute. exact I.
  - apply list_elem_of_further, list_elem_of_here.
  - discriminate.
Defined.

(** ** The meaning of the [checked] set *)

Lemma range_pkgs_memo_sound G fuel pkgs st st' :
  memo_sound G st → stk st = ∅ →
  range_pkgs (fn fuel G) pkgs st = Done st' → memo_sound G st' ∧ stk st' = ∅.
Proof.
  revert st. induction pkgs as [|pkg pkgs IH]; intros st Hmemo Hstk Hrun;
    cbn [range_pkgs] in Hrun.
  { by injection Hrun as <-. }
  assert (stack_leads_to G st (ImportPath pkg)) as Hlead.
  { intros s. rewrite Hstk. set_solver. }
  pose proof (fn_traverses G fuel (ImportPath pkg) st Hmemo Hlead) as Hfn.
  destruct (fn fuel G (ImportPath pkg) st) as [s1| |] eqn:Hc;
    cbn [outcome_bind] in Hrun; try done.
  destruct Hfn as [Hmemo1 _]. apply fn_Done in Hc as [Hs1 _].
  apply (IH s1); [done|congruence|done].
Qed.

(** X10.  What [checked] records when the walk over the targets is over:
    for a checked import path, every path it leads to that is not in the
    table is in the missing set.  (Its dependencies need not all be
    present: a package is also marked when all it misses was already
    recorded, as the second target below.) *)
Theorem checked_means_recorded (G : gmap string Pkg) (fuel : nat)
    (pkgs : list Pkg) (st' : analysis) (c q : string) :
  range_pkgs (fn fuel G) pkgs empty_analysis = Done st' →
  c ∈ checked st' → rtc (edge G) c q → G !! q = None → q ∈ missing st'.
Proof.
  intros Hrun Hc Hreach Hq.
  destruct (range_pkgs_memo_sound G fuel pkgs _ _ (memo_sound_empty G) eq_refl Hrun)
    as [Hmemo _].
  destruct (Hmemo c Hc) as (stack & _ & f & Hf).
  apply (traverse_Done_missing G _ _ _ _ _ Hf q). by right.
Qed.

Lemma checked_means_recorded_witness :
  ∃ st',
    range_pkgs (fn 4 (all_imports (one_root "r" [mkPkg "A" ["D"]; mkPkg "B" ["D"]])))
      [mkPkg "A" ["D"]; mkPkg "B" ["D"]] empty_analysis = Done st' ∧
    "B" ∈ checked st' ∧ "D" ∈ missing st'.
Proof.
  eexists. split; [vm_compute; reflexivity|].
  assert ("B" ∈ ({["B"]} : gset string)) as HB by (apply elem_of_singleton; reflexivity).
  split; [exact HB|].
  apply (checked_means_recorded
           (all_imports (one_root "r" [mkPkg "A" ["D"]; mkPkg "B" ["D"]])) 4
           [mkPkg "A" ["D"]; mkPkg "B" ["D"]] _ "B" "D").
  - vm_compute. reflexivity.
  - exact HB.
  - apply rtc_once. exists (mkPkg "B" ["D"]).
    split; [vm_compute; reflexivity|]. split; [apply list_elem_of_here|discriminate].
  - vm_compute. reflexivity.
Defined.

(** * Further properties of the command *)

(** ** [fetch] and its loop, one step at a time *)

Lemma fetch_unfold (K : collaborators) fuel path recurse global (w : world K) :
  fetch K (S fuel) path recurse global w
  = match fetch_step K path global (record (FetchCalled path recurse global) w) with
    | (Return p, w1) =>
        if recurse
        then ForLoop K (fetch K fuel) fuel p global
               (with_revision "" (with_tag "" w1))
        else (Return tt, w1)
    | (Raise e, w1) => (Raise e, w1)
    | (Panic p, w1) => (Panic p, w1)
    | (Unfinished, w1) => (Unfinished, w1)
    end.
Proof.
  cbn [fetch]. unfold bind at 1. unfold emit at 1. unfold bind at 1.
  destruct (fetch_step K path global _) as [[p|e|p|] w1]; try reflexivity.
  destruct recurse; reflexivity.
Qed.

Lemma ForLoop_unfold (K : collaborators) fetch_rec n path global (w : world K) :
  ForLoop K fetch_rec (S n) path global w
  = match read_fault K (ext w) with
    | (Some err, e1) =>
        (Raise (External err), record (ManifestRead false) (with_ext e1 w))
    | (None, e1) =>
        let w1 := record (ManifestRead true) (with_ext e1 w) in
        let paths := roots K (manifest_file w) global in
        match LoadPaths K paths (vendor_tree w) e1 with
        | (Failure err, e2) =>
            (Raise (External err), record (PathsLoaded paths false) (with_ext e2 w1))
        | (Success dsm, e2) =>
            let w2 := record (PathsLoaded paths true) (with_ext e2 w1) in
            match lookup_depset dsm (Join K (vendorDir K global) path) with
            | None => (Raise (UnableToLocateDepset path), w2)
            | Some is_ =>
                match findMissing (pkgs (Pkgs is_)) dsm with
                | Panicked f => (Panic (AnalysisPanic f), w2)
                | OutOfFuel => (Unfinished, w2)
                | Done M =>
                    if decide (size M = 0) then (Return tt, w2)
                    else
                      match first_key M with
                      | None => (Panic IndexOutOfRange, w2)
                      | Some pkg =>
                          after_fetch K (ForLoop K fetch_rec n path global)
                            (fetch_rec pkg false global
                               (record
                                  (Logged ("fetching recursive dependency " +:+ pkg))
                                  w2))
                      end
                end
            end
        end
    end.
Proof.
  cbn [ForLoop].
  unfold must, log_Printf, bind, emit, ReadManifest, call_LoadPaths, ret, raise,
    panic, unfinished.
  destruct (read_fault K (ext w)) as [[err|] e1]; [reflexivity|].
  cbn [ext record with_ext vendor_tree manifest_file is_nil].
  destruct (LoadPaths K _ (vendor_tree w) e1) as [[dsm|err] e2]; [|reflexivity].
  cbn [is_ok].
  destruct (lookup_depset dsm _) as [is_|]; [|reflexivity].
  destruct (findMissing _ dsm) as [M|f|]; [|reflexivity..].
  case_decide; [reflexivity|].
  destruct (first_key M) as [pkg|]; reflexivity.
Qed.

(** ** What a call of [fetch] can end with *)

(** The loop never returns [AlreadyErr]: line 192 turns it into leaving
    the loop. *)
Lemma ForLoop_not_AlreadyErr (K : collaborators) fetch_rec n path global
    (w : world K) :
  (ForLoop K fetch_rec n path global w).1 ≠ Raise AlreadyErr.
Proof.
  revert w. induction n as [|n IH]; intros w; [done|].
  rewrite ForLoop_unfold.
  destruct (read_fault K (ext w)) as [[err|] e1]; [done|]. cbv zeta.
  destruct (LoadPaths K _ (vendor_tree w) e1) as [[dsm|err] e2]; [|done].
  destruct (lookup_depset dsm _) as [is_|]; [|done].
  destruct (findMissing _ dsm) as [M|f|]; [|done..].
  case_decide; [done|].
  destruct (first_key M) as [pkg|]; [|done].
  destruct (fetch_rec pkg false global _) as [[[]|e|p|] w2]; cbn [after_fetch];
    [apply IH|destruct e; done|done..].
Qed.

(** X11.  [fetch] returns [AlreadyErr] only from its first step, for a path
    that, without its scheme, is in the manifest it has read; it has then
    changed neither the manifest file nor the vendor tree, and it has
    called [Checkout] not once. *)
Theorem fetch_AlreadyErr_only_vendored (K : collaborators) (fuel : nat)
    (path : string) (recurse global : bool) (w : world K) :
  (fetch K fuel path recurse global w).1 = Raise AlreadyErr →
  (∃ host upath,
     url_Parse K path = Success (host, upath) ∧
     HasImportpath (manifest_file w) (host +:+ upath) = true) ∧
  manifest_file (fetch K fuel path recurse global w).2 = manifest_file w ∧
  vendor_tree (fetch K fuel path recurse global w).2 = vendor_tree w ∧
  checkout_selectors (events_since w (fetch K fuel path recurse global w).2) = [].
Proof.
  destruct fuel as [|fuel]; [done|]. rewrite fetch_unfold.
  destruct (fetch_step K path global _) as [[p|e|p|] w1] eqn:Hstep; try done.
  - destruct recurse; [|done]. intros Hloop.
    by destruct (ForLoop_not_AlreadyErr K (fetch K fuel) fuel p global
                   (with_revision "" (with_tag "" w1))).
  - simpl. intros [= ->]. run_step. split; [by eauto|].
    split; [done|]. split; [done|].
    unfold events_since. simpl. by rewrite <-!(assoc_L (++)), drop_app_length.
Qed.

Lemma fetch_AlreadyErr_only_vendored_witness :
  (∃ host upath,
     url_Parse (demo NothingFails app_graph) "app" = Success (host, upath) ∧
     HasImportpath (manifest_file (app_vendored NothingFails app_graph))
       (host +:+ upath) = true) ∧
  manifest_file
    (fetch (demo NothingFails app_graph) 2 "app" true false
       (app_vendored NothingFails app_graph)).2
  = manifest_file (app_vendored NothingFails app_graph) ∧
  vendor_tree
    (fetch (demo NothingFails app_graph) 2 "app" true false
       (app_vendored NothingFails app_graph)).2
  = vendor_tree (app_vendored NothingFails app_graph) ∧
  checkout_selectors
    (events_since (app_vendored NothingFails app_graph)
       (fetch (demo NothingFails app_graph) 2 "app" true false
          (app_vendored NothingFails app_graph)).2) = [].
Proof.
  apply fetch_AlreadyErr_only_vendored. vm_compute. reflexivity.
Defined.

Lemma findMissing_fault_kind pkgs dsm f :
  findMissing pkgs dsm = Panicked f → ∃ v s, f = ImportLoop v s.
Proof.
  rewrite findMissing_unmemoized_eq. apply unmemoized_from_fault.
Qed.

Lemma fetch_step_panic (K : collaborators) path global (w : world K) p :
  (fetch_step K path global w).1 = Panic p → ∃ err, p = UrlParsePanic err.
Proof.
  destruct (fetch_step K path global w) as [r w'] eqn:Hstep. simpl.
  intros ->. run_step. eauto.
Qed.

Lemma ForLoop_panic (K : collaborators) fetch_rec n path global (w : world K) p :
  (∀ pkg w0 p0, (fetch_rec pkg false global w0).1 = Panic p0 →
     (∃ err, p0 = UrlParsePanic err) ∨ ∃ v s, p0 = AnalysisPanic (ImportLoop v s)) →
  (ForLoop K fetch_rec n path global w).1 = Panic p →
  (∃ err, p = UrlParsePanic err) ∨ ∃ v s, p = AnalysisPanic (ImportLoop v s).
Proof.
  intros Hrec. revert w. induction n as [|n IH]; intros w; [done|].
  rewrite ForLoop_unfold.
  destruct (read_fault K (ext w)) as [[err|] e1]; [done|]. cbv zeta.
  destruct (LoadPaths K _ (vendor_tree w) e1) as [[dsm|err] e2]; [|done].
  destruct (lookup_depset dsm _) as [is_|]; [|done].
  destruct (findMissing _ dsm) as [M|f|] eqn:Hmiss; [|simpl|done].
  - case_decide as Hsz; [done|].
    destruct (first_key_is_Some M Hsz) as [pkg ->].
    specialize (Hrec pkg (record (Logged ("fetching recursive dependency " +:+ pkg))
      (record (PathsLoaded (roots K (manifest_file w) global) true)
         (with_ext e2 (record (ManifestRead true) (with_ext e1 w)))))).
    destruct (fetch_rec pkg false global _) as [[[]|e|p0|] w2]; cbn [after_fetch].
    + apply IH.
    + by destruct e.
    + simpl. intros [= <-]. by apply Hrec.
    + done.
  - intros [= <-]. right. destruct (findMissing_fault_kind _ _ _ Hmiss) as (v & s & ->).
    eauto.
Qed.

(** X12.  [fetch] panics in two cases only: [url.Parse] rejects a path
    (line 291), or the analysis finds an import loop (line 238).  In
    particular [keys[0]] at line 189 is never out of range, and the
    "impossible pop" of line 244 never happens. *)
Theorem fetch_panics_only (K : collaborators) (fuel : nat) (path : string)
    (recurse global : bool) (w : world K) (p : panic_value) :
  (fetch K fuel path recurse global w).1 = Panic p →
  (∃ err, p = UrlParsePanic err) ∨ ∃ v s, p = AnalysisPanic (ImportLoop v s).
Proof.
  revert path recurse global w p.
  induction fuel as [|fuel IH]; intros path recurse global w p; [done|].
  rewrite fetch_unfold.
  pose proof (fetch_step_panic K path global
                (record (FetchCalled path recurse global) w)) as Hstep.
  destruct (fetch_step K path global _) as [[q|e|p0|] w1]; try done.
  - destruct recurse; [|done]. apply ForLoop_panic. intros pkg w0 p0. apply IH.
  - simpl. intros [= <-]. left. by apply Hstep.
Qed.

Lemma fetch_panics_only_witness :
  (∃ err, AnalysisPanic (ImportLoop "app" {["app"; "dep"]}) = UrlParsePanic err) ∨
  ∃ v s, AnalysisPanic (ImportLoop "app" {["app"; "dep"]})
         = AnalysisPanic (ImportLoop v s).
Proof.
  apply (fetch_panics_only
           (demo NothingFails (λ p, if decide (p = "app") then ["dep"] else ["app"]))
           4 "app" true false
           (demo_world NothingFails
              (λ p, if decide (p = "app") then ["dep"] else ["app"]) "" ""
              {| Dependencies := [] |})).
  vm_compute. reflexivity.
Defined.

(** ** One vendoring step: calls and effects *)



Ltac find_copy :=
  unfold events_since; simpl;
  rewrite <-?(assoc_L (++)), ?drop_app_length; simpl;
  do 5 apply list_elem_of_further; apply list_elem_of_here.

Lemma fetch_step_manifest_tree (K : collaborators) path global (w : world K) :
  (manifest_file (fetch_step K path global w).2 = manifest_file w ∨
   ∃ dep dst src,
     HasImportpath (manifest_file w) (Importpath dep) = false ∧
     manifest_file (fetch_step K path global w).2
     = {| Dependencies := Dependencies (manifest_file w) ++ [dep] |} ∧
     Copied dst src true ∈ events_since w (fetch_step K path global w).2) ∧
  (vendor_tree (fetch_step K path global w).2 = vendor_tree w ∨
   ∃ dst src ok,
     Copied dst src ok ∈ events_since w (fetch_step K path global w).2).
Proof.
  destruct (fetch_step K path global w) as [r w'] eqn:Hstep. simpl.
  run_step;
    (split;
     [first
        [by left
        |right;
         eexists {| Importpath := _; Repository := _; Revision := _;
                    Branch := _; Path := _ |}, _, _;
         split; [simpl; eassumption|]; split; [reflexivity|]; find_copy]
     |first [by left|right; do 3 eexists; find_copy]]).
Qed.


Lemma HasImportpath_added (m : Manifest) (dep : Dependency) :
  HasImportpath {| Dependencies := Dependencies m ++ [dep] |} (Importpath dep) = true.
Proof.
  apply bool_decide_eq_true. simpl. rewrite fmap_app. set_solver.
Qed.

(** X15.  When a step has called [Destroy], the dependency is committed:
    the manifest was written before, with success, the manifest file is
    the manifest written, and it holds the import path of the step, which
    the manifest read did not.  This is so also when [Destroy] fails and
    the step returns its error. *)
Theorem destroy_after_commit (K : collaborators) (path : string) (global : bool)
    (w : world K) (wc : WorkingCopy K) (ok : bool) :
  Destroyed wc ok ∈ events_since w (fetch_step K path global w).2 →
  ∃ host upath,
    url_Parse K path = Success (host, upath) ∧
    HasImportpath (manifest_file w) (host +:+ upath) = false ∧
    HasImportpath (manifest_file (fetch_step K path global w).2) (host +:+ upath)
    = true ∧
    events_since w (fetch_step K path global w).2 !! 6
    = Some (ManifestWritten (manifest_file (fetch_step K path global w).2) true) ∧
    events_since w (fetch_step K path global w).2 !! 7 = Some (Destroyed wc ok) ∧
    (ok = false → ∃ err, (fetch_step K path global w).1 = Raise (External err)).
Proof.
  intros Hd.
  destruct (fetch_step K path global w) as [r w'] eqn:Hstep. simpl in *.
  run_step; list_events Hd;
    do 2 eexists; (split; [done|]); (split; [done|]);
    (split; [apply HasImportpath_added|]);
    unfold events_since; simpl;
    rewrite <-?(assoc_L (++)), ?drop_app_length; simpl;
    (split; [done|]); (split; [done|]); (done || by eauto).
Qed.

Lemma destroy_after_commit_witness :
  ∃ host upath,
    url_Parse (demo NothingFails app_graph) "app" = Success (host, upath) ∧
    HasImportpath
      (manifest_file (demo_world NothingFails app_graph "" "" {| Dependencies := [] |}))
      (host +:+ upath) = false ∧
    HasImportpath
      (manifest_file
         (fetch_step (demo NothingFails app_graph) "app" false
            (demo_world NothingFails app_graph "" "" {| Dependencies := [] |})).2)
      (host +:+ upath) = true ∧
    events_since (demo_world NothingFails app_graph "" "" {| Dependencies := [] |})
      (fetch_step (demo NothingFails app_graph) "app" false
         (demo_world NothingFails app_graph "" "" {| Dependencies := [] |})).2 !! 6
    = Some (ManifestWritten
              (manifest_file
                 (fetch_step (demo NothingFails app_graph) "app" false
                    (demo_world NothingFails app_graph "" ""
                       {| Dependencies := [] |})).2) true) ∧
    events_since (demo_world NothingFails app_graph "" "" {| Dependencies := [] |})
      (fetch_step (demo NothingFails app_graph) "app" false
         (demo_world NothingFails app_graph "" "" {| Dependencies := [] |})).2 !! 7
    = Some (@Destroyed (demo NothingFails app_graph) "/tmp/https://app" true) ∧
    (true = false →
     ∃ err,
       (fetch_step (demo NothingFails app_graph) "app" false
          (demo_world NothingFails app_graph "" "" {| Dependencies := [] |})).1
       = Raise (External err)).
Proof.
  apply (destroy_after_commit (demo NothingFails app_graph) "app" false
           (demo_world NothingFails app_graph "" "" {| Dependencies := [] |})
           "/tmp/https://app" true).
  vm_compute. do 7 apply list_elem_of_further. apply list_elem_of_here.
Defined.



(** ** The manifest across a whole run *)

Lemma manifest_extends_same {K} (w w' : world K) :
  manifest_file w' = manifest_file w → manifest_extends w w'.
Proof.
  intros Hm. split; [|by rewrite Hm].
  exists []. by rewrite Hm, app_nil_r.
Qed.

Lemma manifest_extends_trans {K} (w1 w2 w3 : world K) :
  manifest_extends w1 w2 → manifest_extends w2 w3 → manifest_extends w1 w3.
Proof.
  intros [[d1 H1] U1] [[d2 H2] U2]. split; [|by auto].
  exists (d1 ++ d2). by rewrite H2, H1, (assoc_L (++)).
Qed.

Lemma fetch_step_extends (K : collaborators) path global (w : world K) :
  manifest_extends w (fetch_step K path global w).2.
Proof.
  destruct (fetch_step_manifest_tree K path global w)
    as [[Hsame|(dep & dst & src & Hnew & Hm & _)] _].
  { by apply manifest_extends_same. }
  split; [by exists [dep]; rewrite Hm|].
  unfold unique_paths. rewrite Hm. simpl. rewrite fmap_app. intros Hnd.
  apply NoDup_app. split; [done|]. split; [|apply NoDup_singleton].
  intros p Hp ->%list_elem_of_singleton.
  unfold HasImportpath in Hnew. by apply bool_decide_eq_false in Hnew.
Qed.

Lemma ForLoop_extends (K : collaborators) fetch_rec n path global (w : world K) :
  (∀ pkg w0, manifest_extends w0 (fetch_rec pkg false global w0).2) →
  manifest_extends w (ForLoop K fetch_rec n path global w).2.
Proof.
  intros Hrec. revert w.
  induction n as [|n IH]; intros w; [apply manifest_extends_same; reflexivity|].
  rewrite ForLoop_unfold.
  destruct (read_fault K (ext w)) as [[err|] e1];
    [apply manifest_extends_same; reflexivity|]. cbv zeta.
  destruct (LoadPaths K _ (vendor_tree w) e1) as [[dsm|err] e2];
    [|apply manifest_extends_same; reflexivity].
  destruct (lookup_depset dsm _) as [is_|]; [|apply manifest_extends_same; reflexivity].
  destruct (findMissing _ dsm) as [M|f|]; [|apply manifest_extends_same; reflexivity..].
  case_decide; [apply manifest_extends_same; reflexivity|].
  destruct (first_key M) as [pkg|]; [|apply manifest_extends_same; reflexivity].
  set (w1 := record (Logged _) _).
  assert (manifest_extends w w1) as H1 by (apply manifest_extends_same; reflexivity).
  pose proof (Hrec pkg w1) as H2.
  destruct (fetch_rec pkg false global w1) as [[[]|e|p|] w2];
    cbn [after_fetch snd] in *.
  - eapply manifest_extends_trans; [|apply IH].
    eapply manifest_extends_trans; [exact H1|exact H2].
  - destruct e; (eapply manifest_extends_trans; [exact H1|exact H2]).
  - eapply manifest_extends_trans; [exact H1|exact H2].
  - eapply manifest_extends_trans; [exact H1|exact H2].
Qed.

Lemma fetch_extends (K : collaborators) fuel path recurse global (w : world K) :
  manifest_extends w (fetch K fuel path recurse global w).2.
Proof.
  revert path recurse global w.
  induction fuel as [|fuel IH]; intros path recurse global w;
    [apply manifest_extends_same; reflexivity|].
  rewrite fetch_unfold.
  pose proof (fetch_step_extends K path global
                (record (FetchCalled path recurse global) w)) as Hstep.
  destruct (fetch_step K path global _) as [[p|e|p|] w1]; try exact Hstep.
  destruct recurse; [|exact Hstep].
  eapply manifest_extends_trans; [exact Hstep|].
  eapply manifest_extends_trans;
    [apply (manifest_extends_same w1 (with_revision "" (with_tag "" w1))); reflexivity|].
  apply ForLoop_extends. intros pkg w0. apply IH.
Qed.


(** X18.  A run of [fetch] keeps the import paths of the manifest file
    pairwise distinct: a step adds a dependency only for a path the
    manifest it read did not hold (line 95). *)
Theorem fetch_keeps_paths_unique (K : collaborators) (fuel : nat) (path : string)
    (recurse global : bool) (w : world K) :
  unique_paths (manifest_file w) →
  unique_paths (manifest_file (fetch K fuel path recurse global w).2).
Proof. apply fetch_extends. Qed.

Lemma fetch_keeps_paths_unique_witness :
  unique_paths
    (manifest_file
       (fetch (demo NothingFails app_graph) 3 "app" true false
          (demo_world NothingFails app_graph "" "" {| Dependencies := [] |})).2).
Proof.
  apply fetch_keeps_paths_unique. apply (bool_decide_unpack _). vm_compute. exact I.
Defined.

(** ** A call without recursion, and the command line *)

Lemma events_since_refl {K} (w : world K) : events_since w w = [].
Proof. unfold events_since. by rewrite drop_all. Qed.

Lemma fetch_norec_events (K : collaborators) fuel path global (w : world K) :
  (∀ paths ok,
     PathsLoaded paths ok ∉ events_since w (fetch K fuel path false global w).2) ∧
  length (checkout_selectors (events_since w (fetch K fuel path false global w).2))
  ≤ 1.
Proof.
  destruct fuel as [|fuel].
  { simpl. rewrite events_since_refl. split; [|simpl; lia].
    intros ?? H. by apply elem_of_nil in H. }
  rewrite fetch_unfold.
  destruct (fetch_step K path global _) as [r w1] eqn:Hstep.
  assert ((∀ paths ok, PathsLoaded paths ok ∉ events_since w w1) ∧
          length (checkout_selectors (events_since w w1)) ≤ 1) as Hw1.
  { run_step;
      (split;
       [intros paths ok Hin; list_events Hin
       |unfold events_since; simpl;
        rewrite <-?(assoc_L (++)), ?drop_app_length; simpl; lia]). }
  by destruct r.
Qed.

(** X19.  A call of [fetch] with [recurse] false never loads packages and
    calls [Checkout] at most once: it is one step, and the analysis is not
    run. *)
Theorem fetch_without_recursion (K : collaborators) (fuel : nat) (path : string)
    (global : bool) (w : world K) :
  (∀ paths ok,
     PathsLoaded paths ok ∉ events_since w (fetch K fuel path false global w).2) ∧
  length (checkout_selectors (events_since w (fetch K fuel path false global w).2))
  ≤ 1.
Proof. apply fetch_norec_events. Qed.

(** X20.  [Run] given no import path, or more than one, returns its error
    without calling anything: the world is left as it was.  Given one path
    with [-no-recurse] set, it never loads packages and calls [Checkout] at
    most once. *)
Theorem Run_arguments (K : collaborators) (fuel : nat) (global : bool)
    (args : list string) (w : world K) :
  (length args ≠ 1 →
   ∀ noRecurse,
     (Run K fuel noRecurse global args w).2 = w ∧
     (Run K fuel noRecurse global args w).1
     = inl (if decide (length args = 0) then ImportPathMissing
            else MoreThanOneImportPath)) ∧
  (∀ paths ok,
     PathsLoaded paths ok ∉ events_since w (Run K fuel true global args w).2) ∧
  length (checkout_selectors (events_since w (Run K fuel true global args w).2)) ≤ 1.
Proof.
  split.
  - intros Hlen noRecurse. destruct args as [|a [|b args]]; simpl in *; done.
  - destruct args as [|a [|b args]]; cbn [Run negb fst snd].
    + rewrite events_since_refl. split; [|simpl; lia].
      intros ?? H. by apply elem_of_nil in H.
    + apply fetch_norec_events.
    + rewrite events_since_refl. split; [|simpl; lia].
      intros ?? H. by apply elem_of_nil in H.
Qed.

Lemma Run_arguments_witness :
  (Run (demo NothingFails app_graph) 3 false false ["app"; "dep"]
     (demo_world NothingFails app_graph "" "" {| Dependencies := [] |})).2
  = demo_world NothingFails app_graph "" "" {| Dependencies := [] |} ∧
  (Run (demo NothingFails app_graph) 3 false false ["app"; "dep"]
     (demo_world NothingFails app_graph "" "" {| Dependencies := [] |})).1
  = inl MoreThanOneImportPath.
Proof.
  apply (Run_arguments (demo NothingFails app_graph) 3 false ["app"; "dep"]
           (demo_world NothingFails app_graph "" "" {| Dependencies := [] |})).
  simpl. lia.
Defined.

(** ** The selectors after a recursive run *)

(** X21.  Once the first step of a recursive [fetch] has returned [nil],
    every later [Checkout] of the run is passed the package-level branch as
    it was at the start, an empty tag and an empty revision; and the run
    leaves the package-level branch as it was and the package-level tag and
    revision empty. *)
Theorem recursive_fetch_selectors (K : collaborators) (fuel : nat)
    (path : string) (global : bool) (w : world K) (p : string) (w1 : world K) :
  fetch_step K path global (record (FetchCalled path true global) w)
    = (Return p, w1) →
  branch (fetch K (S fuel) path true global w).2 = branch w ∧
  tag (fetch K (S fuel) path true global w).2 = "" ∧
  revision (fetch K (S fuel) path true global w).2 = "" ∧
  ∃ evs,
    trace (fetch K (S fuel) path true global w).2 = trace w1 ++ evs ∧
    Forall (λ s, s = (branch w, "", "")) (checkout_selectors evs).
Proof.
  intros Hstep.
  pose proof (fetch_step_selectors K path global
                (record (FetchCalled path true global) w)) as Hsel.
  rewrite Hstep in Hsel. destruct Hsel as (Hb & _ & _ & _). simpl in Hb.
  rewrite fetch_unfold, Hstep.
  destruct (ForLoop_selectors K fuel fuel p global
              (with_revision "" (with_tag "" w1)))
    as (Hb' & Ht' & Hr' & evs & Htr & Hall).
  simpl in *. rewrite Hb in *.
  split; [done|]. split; [done|]. split; [done|]. by exists evs.
Qed.

Lemma recursive_fetch_selectors_witness :
  branch
    (fetch (demo NothingFails app_graph) 3 "app" true false
       (demo_world NothingFails app_graph "dev" "abc123" {| Dependencies := [] |})).2
  = "dev" ∧
  tag
    (fetch (demo NothingFails app_graph) 3 "app" true false
       (demo_world NothingFails app_graph "dev" "abc123" {| Dependencies := [] |})).2
  = "" ∧
  revision
    (fetch (demo NothingFails app_graph) 3 "app" true false
       (demo_world NothingFails app_graph "dev" "abc123" {| Dependencies := [] |})).2
  = "" ∧
  ∃ evs,
    trace
      (fetch (demo NothingFails app_graph) 3 "app" true false
         (demo_world NothingFails app_graph "dev" "abc123"
            {| Dependencies := [] |})).2
    = trace
        (fetch_step (demo NothingFails app_graph) "app" false
           (record (FetchCalled "app" true false)
              (demo_world NothingFails app_graph "dev" "abc123"
                 {| Dependencies := [] |}))).2
      ++ evs ∧
    Forall (λ s, s = ("dev", "", "")) (checkout_selectors evs).
Proof.
  apply (recursive_fetch_selectors (demo NothingFails app_graph) 2 "app" false
           (demo_world NothingFails app_graph "dev" "abc123" {| Dependencies := [] |})
           "app").
  vm_compute. reflexivity.
Defined.

(** ** The order of the keys *)

(** X22.  The path picked at lines 187-189 does not depend on the order in
    which [keys] lists the missing set: sorting any listing of the set
    gives the same first element. *)
Theorem first_key_any_order (ks : list string) (M : gset string) :
  ks ≡ₚ keys M → head (sort_Strings ks) = first_key M.
Proof.
  intros Hperm. unfold first_key. by rewrite (sort_Strings_any_order ks M).
Qed.

Lemma first_key_any_order_witness :
  head (sort_Strings ["zzz/pkg"; "mmm/pkg"; "aaa/pkg"])
  = first_key {["aaa/pkg"; "mmm/pkg"; "zzz/pkg"]}.
Proof.
  apply first_key_any_order.
  apply (bool_decide_unpack _). vm_compute. exact I.
Defined.
